(** * The product store of the inventory server (src/server.ts)

    The server keeps one module-level array [products] and one counter
    [nextId]; the resolver map reads and mutates them.  The resolvers are
    embedded in state-passing style over a [Store] record, the array
    built-ins they call ([slice], [findIndex], [push], [splice], [String],
    [++] on a number) are embedded in [Module JS] following ECMAScript. *)

From Stdlib Require Import ZArith Floats Lia.
From stdpp Require Import list strings pretty sorting.

Set Warnings "-inexact-float".

(** ** The JavaScript built-ins used by the resolvers *)

Module JS.

Section Arrays.
Context {A : Type}.

(** [Array.prototype.slice(start, end)]: a negative bound counts from
    the end of the array, every bound is clamped to [0, len], and the
    copy is empty when the clamped end is not after the clamped start. *)
Definition relative (len i : Z) : Z :=
  if (i <? 0)%Z then Z.max (len + i) 0 else Z.min i len.

Definition slice (l : list A) (start end_ : Z) : list A :=
  let len := Z.of_nat (length l) in
  let k := relative len start in
  let final := relative len end_ in
  take (Z.to_nat (final - k)) (drop (Z.to_nat k) l).

(** [Array.prototype.findIndex(pred)]: the index of the first element
    satisfying the predicate, [-1] when there is none. *)
Definition findIndex (P : A → Prop) `{!∀ x, Decision (P x)}
    (l : list A) : Z :=
  match list_find P l with
  | Some (i, _) => Z.of_nat i
  | None => (-1)%Z
  end.

(** [Array.prototype.push(x)] on the array. *)
Definition push (l : list A) (x : A) : list A := l ++ [x].

(** [Array.prototype.splice(start, deleteCount)]: the removed elements
    and the array that remains. *)
Definition splice (l : list A) (start deleteCount : Z)
    : list A * list A :=
  let len := Z.of_nat (length l) in
  let s := relative len start in
  let dc := Z.min (Z.max deleteCount 0) (len - s) in
  (take (Z.to_nat dc) (drop (Z.to_nat s) l),
   take (Z.to_nat s) l ++ drop (Z.to_nat (s + dc)) l).

(** [arr[i] = x] for an index inside the array. *)
Definition set_index (l : list A) (i : Z) (x : A) : list A :=
  <[Z.to_nat i := x]> l.
End Arrays.

(** [String(n)] for a number holding an integer of magnitude below 10^21:
    its decimal numeral. *)
Definition String_ (n : Z) : string := pretty n.

(** 2^53, the value at which a number that counts up by one stops. *)
Definition two53 : Z := 9007199254740992.

(** [n + 1], the value [n++] stores, for a number holding an integer from
    0 to 2^53.  A binary64 number holds every integer up to 2^53, so the
    sum is exact below 2^53.  2^53 + 1 lies halfway between the two nearest
    numbers, 2^53 and 2^53 + 2, and rounds to the one with the even
    significand, 2^53: from there on the number no longer advances. *)
Definition succ (n : Z) : Z := if (n <? two53)%Z then (n + 1)%Z else n.

End JS.

(** ** The store and its resolvers *)

(** A product record.  [price] is a GraphQL [Float] (a double), [stock] a
    GraphQL [Int]. *)
Record Product := mkProduct {
  id : string;
  name : string;
  price : float;
  stock : Z;
}.

(** The two module-level variables of the server.  [nextId] is a
    JavaScript number; it starts at 1 and is only changed by [nextId++], so
    it holds an integer from 1 to 2^53 ([run_counter], [reachable_range]),
    given here as that integer. *)
Record Store := mkStore {
  products : list Product;
  nextId : Z;
}.

Definition init : Store := {| products := []; nextId := 1 |}.

(** [Query.products]: for integer arguments the two bounds are integers;
    [slice] only compares them with 0 and with the array length, which the
    rounding of a product beyond 2^53 does not change. *)
Definition Query_products (st : Store) (page perPage : Z)
    : list Product * Store :=
  (JS.slice (products st) ((page - 1) * perPage) (page * perPage), st).

(** [Mutation.addProduct] *)
Definition addProduct (st : Store) (name : string) (price : float)
    (stock : Z) : option Product * Store :=
  let newProduct :=
    {| id := JS.String_ (nextId st); name := name;
       price := price; stock := stock |} in
  (Some newProduct,
   {| products := JS.push (products st) newProduct;
      nextId := JS.succ (nextId st) |}).

(** [Mutation.updateProduct] *)
Definition updateProduct (st : Store) (id0 name : string) (price : float)
    (stock : Z) : option Product * Store :=
  let productIndex :=
    JS.findIndex (λ product, id product = id0) (products st) in
  if (productIndex =? -1)%Z then (None, st)
  else
    let updatedProduct :=
      {| id := id0; name := name; price := price; stock := stock |} in
    (Some updatedProduct,
     {| products := JS.set_index (products st) productIndex updatedProduct;
        nextId := nextId st |}).

(** [Mutation.removeProduct] *)
Definition removeProduct (st : Store) (id0 : string)
    : option Product * Store :=
  let productIndex :=
    JS.findIndex (λ product, id product = id0) (products st) in
  if (productIndex =? -1)%Z then (None, st)
  else
    let '(removed, rest) := JS.splice (products st) productIndex 1 in
    (removed !! 0, {| products := rest; nextId := nextId st |}).

(** ** Runs of the server *)

Inductive Mutation :=
  | AddProduct (name : string) (price : float) (stock : Z)
  | UpdateProduct (id0 name : string) (price : float) (stock : Z)
  | RemoveProduct (id0 : string).

Definition step (st : Store) (m : Mutation) : option Product * Store :=
  match m with
  | AddProduct n p s => addProduct st n p s
  | UpdateProduct i n p s => updateProduct st i n p s
  | RemoveProduct i => removeProduct st i
  end.

Fixpoint run (st : Store) (ms : list Mutation) : Store :=
  match ms with
  | [] => st
  | m :: ms' => run (step st m).2 ms'
  end.

(** The states the server can be in. *)
Definition reachable (st : Store) : Prop := ∃ ms, run init ms = st.

(** The ids handed out by [addProduct] along a run, oldest first. *)
Fixpoint assigned (st : Store) (ms : list Mutation) : list string :=
  match ms with
  | [] => []
  | m :: ms' =>
      match m, (step st m).1 with
      | AddProduct _ _ _, Some p => id p :: assigned (step st m).2 ms'
      | _, _ => assigned (step st m).2 ms'
      end
  end.

(** The listing as the specification words it: up to [perPage] records
    starting at offset [(page - 1) * perPage]. *)
Definition page_spec (l : list Product) (page perPage : Z) : list Product :=
  take (Z.to_nat perPage) (drop (Z.to_nat ((page - 1) * perPage)) l).

(** The number of [addProduct] calls in a run. *)
Fixpoint adds (ms : list Mutation) : Z :=
  match ms with
  | [] => 0
  | AddProduct _ _ _ :: ms' => 1 + adds ms'
  | _ :: ms' => adds ms'
  end.

(** What holds of the store after [a] additions, for [a] up to 2^53: the
    counter has not passed 2^53, every listed id is the numeral of one of
    the first [a] counter values, and no id is listed twice. *)
Record store_inv (a : Z) (st : Store) : Prop := {
  inv_count : (0 ≤ a ≤ JS.two53)%Z;
  inv_counter : nextId st = Z.min (1 + a) JS.two53;
  inv_issued :
    Forall (λ q, ∃ k, (1 ≤ k ≤ a)%Z ∧ id q = JS.String_ k) (products st);
  inv_nodup : NoDup (id <$> products st);
}.

(** A record carries the name, price and stock of a call (and, for an
    update, its id). *)
Definition wrote (q : Product) (m : Mutation) : Prop :=
  match m with
  | AddProduct n p s => name q = n ∧ price q = p ∧ stock q = s
  | UpdateProduct i n p s =>
      id q = i ∧ name q = n ∧ price q = p ∧ stock q = s
  | RemoveProduct _ => False
  end.

(** Sign conditions of the data model, on a record and on the arguments of
    a mutation. *)
Definition nonneg (price : float) (stock : Z) : Prop :=
  PrimFloat.leb 0 price = true ∧ (0 ≤ stock)%Z.

Definition nonneg_product (q : Product) : Prop := nonneg (price q) (stock q).

Definition nonneg_args (m : Mutation) : Prop :=
  match m with
  | AddProduct _ p s | UpdateProduct _ _ p s => nonneg p s
  | RemoveProduct _ => True
  end.

(** A run used for the concrete checks: five products added in a row. *)
Definition demo_run : list Mutation :=
  [AddProduct "bolt" 0.5%float 40; AddProduct "nut" 0.25%float 60;
   AddProduct "gear" 12%float 7; AddProduct "belt" 8%float 3;
   AddProduct "axle" 30%float 2].

Definition demo : Store := run init demo_run.

(** The states the server is in while the counter has not reached 2^53. *)
Definition unsaturated (st : Store) : Prop :=
  reachable st ∧ (nextId st < JS.two53)%Z.

(** A list without its first record carrying the id. *)
Fixpoint remove_first (i : string) (l : list Product) : list Product :=
  match l with
  | [] => []
  | x :: l' => if decide (id x = i) then l' else x :: remove_first i l'
  end.

(** A run that drives the counter to 2^53: a product is added and removed
    again 2^53 - 1 times, then one product is added and stays. *)
Definition churn (k : Z) : list Mutation :=
  [AddProduct "spare" 0%float 0; RemoveProduct (JS.String_ k)].

Definition saturating_run : list Mutation :=
  concat (churn <$> seqZ 1 (JS.two53 - 1)) ++ [AddProduct "first" 1%float 1].

Definition saturated : Store :=
  {| products := [mkProduct "9007199254740992" "first" 1%float 1];
     nextId := JS.two53 |}.

(** One more addition after that. *)
Definition duplicating_run : list Mutation :=
  saturating_run ++ [AddProduct "second" 2%float 2].

Definition duplicated : Store :=
  {| products := [mkProduct "9007199254740992" "first" 1%float 1;
                  mkProduct "9007199254740992" "second" 2%float 2];
     nextId := JS.two53 |}.

(** The first [n] pages of a client that walks the listing with a fixed
    page size, one after the other. *)
Definition pages (st : Store) (perPage : Z) (n : nat) : list Product :=
  concat ((λ page, (Query_products st page perPage).1) <$> seqZ 1 (Z.of_nat n)).

(** The ids of the live list are the numerals of strictly increasing
    counter values. *)
Definition ids_increasing (st : Store) : Prop :=
  ∃ ks : list Z,
    id <$> products st = JS.String_ <$> ks
    ∧ StronglySorted Z.lt ks
    ∧ Forall (λ k, (1 ≤ k < nextId st)%Z) ks.

(** ** Facts about the built-ins *)

Section slice_facts.
Context {A : Type}.
Implicit Types (l : list A) (x : A).

Lemma relative_bounds l i :
  (0 ≤ JS.relative (Z.of_nat (length l)) i ≤ Z.of_nat (length l))%Z.
Proof. unfold JS.relative. destruct (Z.ltb_spec i 0); lia. Qed.

(** With bounds that are not negative, [slice] is a plain window. *)
Lemma slice_window l s e :
  (0 ≤ s)%Z → (0 ≤ e)%Z →
  JS.slice l s e = take (Z.to_nat (e - s)) (drop (Z.to_nat s) l).
Proof.
  intros Hs He. unfold JS.slice, JS.relative.
  destruct (Z.ltb_spec s 0); [lia|]. destruct (Z.ltb_spec e 0); [lia|].
  destruct (decide (Z.of_nat (length l) ≤ s)%Z) as [Hge|Hlt].
  - rewrite !drop_ge by lia. by rewrite !take_nil.
  - replace (Z.min s (Z.of_nat (length l))) with s by lia.
    destruct (decide (e ≤ Z.of_nat (length l))%Z).
    + by replace (Z.min e (Z.of_nat (length l))) with e by lia.
    + rewrite !take_ge; [done|rewrite length_drop; lia..].
Qed.

Lemma slice_length l s e :
  Z.of_nat (length (JS.slice l s e)) =
  Z.max 0 (JS.relative (Z.of_nat (length l)) e
           - JS.relative (Z.of_nat (length l)) s).
Proof.
  unfold JS.slice. pose proof (relative_bounds l s).
  pose proof (relative_bounds l e).
  rewrite length_take, length_drop. lia.
Qed.

Lemma slice_nil_iff l s e :
  JS.slice l s e = [] ↔
  (JS.relative (Z.of_nat (length l)) e
    ≤ JS.relative (Z.of_nat (length l)) s)%Z.
Proof.
  pose proof (slice_length l s e) as Hlen. split.
  - intros Hnil. rewrite Hnil in Hlen. simpl in Hlen. lia.
  - intros Hle. apply length_zero_iff_nil. lia.
Qed.

(** Every record of a slice sits in the array, at the slice's clamped
    start plus its position in the slice. *)
Lemma slice_lookup l s e i x :
  JS.slice l s e !! i = Some x →
  l !! (Z.to_nat (JS.relative (Z.of_nat (length l)) s) + i) = Some x.
Proof.
  unfold JS.slice. intros [Hx _]%lookup_take_Some.
  by rewrite lookup_drop in Hx.
Qed.

Lemma slice_elem_of l s e x : x ∈ JS.slice l s e → x ∈ l.
Proof.
  intros [i Hi]%list_elem_of_lookup.
  eapply list_elem_of_lookup_2, slice_lookup, Hi.
Qed.

(** The record at index [i] is in every window that covers [i]. *)
Lemma slice_covers l s e i x :
  l !! i = Some x → (0 ≤ s ≤ Z.of_nat i)%Z → (Z.of_nat i < e)%Z →
  JS.slice l s e !! (i - Z.to_nat s) = Some x.
Proof.
  intros Hx Hs He. rewrite slice_window by lia.
  rewrite lookup_take_lt by lia. rewrite lookup_drop.
  by replace (Z.to_nat s + (i - Z.to_nat s)) with i by lia.
Qed.
End slice_facts.

Section find_facts.
Context {A : Type} (P : A → Prop) `{!∀ x, Decision (P x)}.
Implicit Types (l : list A) (x : A).

Lemma findIndex_found l k x :
  list_find P l = Some (k, x) → JS.findIndex P l = Z.of_nat k.
Proof. unfold JS.findIndex. by intros ->. Qed.

Lemma findIndex_missing l :
  JS.findIndex P l = (-1)%Z ↔ Forall (λ x, ¬ P x) l.
Proof.
  etrans; [|apply (list_find_None P l)]. unfold JS.findIndex.
  destruct (list_find P l) as [[k x]|]; [|by split].
  split; [intros; lia|done].
Qed.

Lemma find_first l x :
  x ∈ l → P x →
  ∃ k y, list_find P l = Some (k, y) ∧ l !! k = Some y ∧ P y
         ∧ ∀ j z, l !! j = Some z → j < k → ¬ P z.
Proof.
  intros Hx HP. destruct (list_find_elem_of P l x Hx HP) as [[k y] Hf].
  exists k, y. split; [done|]. by apply list_find_Some in Hf.
Qed.

(** [splice(k, 1)] at an index inside the array takes out exactly the
    element at [k]. *)
Lemma splice_one l k x :
  l !! k = Some x →
  JS.splice l (Z.of_nat k) 1 = ([x], delete k l).
Proof.
  intros Hx. pose proof (lookup_lt_Some _ _ _ Hx) as Hk.
  unfold JS.splice, JS.relative.
  destruct (Z.ltb_spec (Z.of_nat k) 0); [lia|].
  replace (Z.min (Z.of_nat k) (Z.of_nat (length l))) with (Z.of_nat k) by lia.
  replace (Z.min (Z.max 1 0) (Z.of_nat (length l) - Z.of_nat k)) with 1%Z by lia.
  rewrite Nat2Z.id. replace (Z.to_nat (Z.of_nat k + 1)) with (S k) by lia.
  rewrite <-delete_take_drop. f_equal.
  rewrite (drop_S _ _ _ Hx). done.
Qed.
End find_facts.

(** ** The mutations, case by case *)

Section resolver_facts.
Implicit Types (st : Store) (i n : string) (p : float) (s : Z).

Lemma updateProduct_at st i n p s k old :
  list_find (λ product, id product = i) (products st) = Some (k, old) →
  updateProduct st i n p s =
    (Some (mkProduct i n p s),
     mkStore (<[k := mkProduct i n p s]> (products st)) (nextId st)).
Proof.
  intros Hf. unfold updateProduct, JS.set_index.
  rewrite (findIndex_found _ _ _ _ Hf).
  destruct (Z.eqb_spec (Z.of_nat k) (-1)); [lia|]. by rewrite Nat2Z.id.
Qed.

Lemma updateProduct_none st i n p s :
  Forall (λ q, id q ≠ i) (products st) →
  updateProduct st i n p s = (None, st).
Proof.
  intros Hall. unfold updateProduct.
  by rewrite (proj2 (findIndex_missing (λ product, id product = i) _) Hall).
Qed.

Lemma removeProduct_at st i k old :
  list_find (λ product, id product = i) (products st) = Some (k, old) →
  removeProduct st i =
    (Some old, mkStore (delete k (products st)) (nextId st)).
Proof.
  intros Hf. unfold removeProduct.
  rewrite (findIndex_found _ _ _ _ Hf).
  destruct (Z.eqb_spec (Z.of_nat k) (-1)); [lia|].
  apply list_find_Some in Hf as (Hk & _ & _).
  by rewrite (splice_one _ _ _ Hk).
Qed.

Lemma removeProduct_none st i :
  Forall (λ q, id q ≠ i) (products st) → removeProduct st i = (None, st).
Proof.
  intros Hall. unfold removeProduct.
  by rewrite (proj2 (findIndex_missing (λ product, id product = i) _) Hall).
Qed.

(** A record carrying the id makes [findIndex] succeed, at the first
    such record. *)
Lemma first_match st i :
  Exists (λ q, id q = i) (products st) →
  ∃ k old,
    list_find (λ product, id product = i) (products st) = Some (k, old)
    ∧ products st !! k = Some old ∧ id old = i
    ∧ ∀ j z, products st !! j = Some z → j < k → id z ≠ i.
Proof.
  intros (q & Hq & Hi)%Exists_exists.
  by apply (find_first (λ product, id product = i) _ q).
Qed.

(** With pairwise distinct ids, deleting the record at [k] leaves no
    record with its id. *)
Lemma delete_id_gone (l : list Product) k old :
  NoDup (id <$> l) → l !! k = Some old →
  Forall (λ q, id q ≠ id old) (delete k l).
Proof.
  intros Hnd Hk. apply Forall_lookup. intros j q Hj Heq.
  assert (∃ j', j' ≠ k ∧ l !! j' = Some q) as (j' & Hne & Hj').
  { destruct (decide (j < k)).
    - exists j. split; [lia|]. by rewrite list_lookup_delete_lt in Hj.
    - exists (S j). split; [lia|].
      by rewrite list_lookup_delete_ge in Hj by lia. }
  apply Hne. eapply (NoDup_lookup (id <$> l) j' k (id old)); [done|..].
  - by rewrite list_lookup_fmap, Hj'; simpl; rewrite Heq.
  - by rewrite list_lookup_fmap, Hk.
Qed.
End resolver_facts.

(** ** The counter and the invariant of the store *)

Section invariant.
Implicit Types (st : Store) (ms : list Mutation) (a : Z).

Lemma succ_below n : (n < JS.two53)%Z → JS.succ n = (n + 1)%Z.
Proof. intros Hn. unfold JS.succ. by destruct (Z.ltb_spec n JS.two53); [|lia]. Qed.

Lemma succ_min a :
  (0 ≤ a < JS.two53)%Z →
  JS.succ (Z.min (1 + a) JS.two53) = Z.min (1 + (a + 1)) JS.two53.
Proof.
  intros Ha. unfold JS.succ.
  destruct (Z.ltb_spec (Z.min (1 + a) JS.two53) JS.two53); lia.
Qed.

Lemma succ_range n :
  (1 ≤ n ≤ JS.two53)%Z →
  JS.succ n = Z.min (n + 1) JS.two53 ∧ (1 ≤ JS.succ n ≤ JS.two53)%Z.
Proof.
  intros Hn. unfold JS.succ. destruct (Z.ltb_spec n JS.two53); lia.
Qed.

Lemma adds_cons m ms : adds (m :: ms) = (adds [m] + adds ms)%Z.
Proof. destruct m; simpl; lia. Qed.

Lemma adds_nonneg ms : (0 ≤ adds ms)%Z.
Proof. induction ms as [|[] ms IH]; simpl; lia. Qed.

Lemma adds_app ms1 ms2 : adds (ms1 ++ ms2) = (adds ms1 + adds ms2)%Z.
Proof.
  induction ms1 as [|m ms1 IH]; [simpl; lia|].
  rewrite <-app_comm_cons, (adds_cons m (ms1 ++ ms2)), (adds_cons m ms1), IH.
  lia.
Qed.

Lemma run_app st ms1 ms2 : run st (ms1 ++ ms2) = run (run st ms1) ms2.
Proof. revert st. induction ms1 as [|m ms1 IH]; intros st; [done|apply IH]. Qed.

Lemma assigned_app st ms1 ms2 :
  assigned st (ms1 ++ ms2) = assigned st ms1 ++ assigned (run st ms1) ms2.
Proof.
  revert st. induction ms1 as [|m ms1 IH]; intros st; [done|].
  rewrite <-app_comm_cons. cbn [assigned run].
  rewrite IH. by destruct m; repeat case_match.
Qed.

Lemma init_inv : store_inv 0 init.
Proof. split; simpl; [unfold JS.two53; lia|done|constructor|constructor]. Qed.

(** Before the 2^53-th addition is over, the id the counter stands for
    is not in the list. *)
Lemma issued_fresh a st :
  store_inv a st → (a < JS.two53)%Z →
  Forall (λ q, id q ≠ JS.String_ (nextId st)) (products st).
Proof.
  intros [Ha Hc Hiss _] Hlt. eapply Forall_impl; [exact Hiss|].
  intros q (k & Hk & Hq) Heq. rewrite Hq in Heq.
  apply (inj (R:=(=)) JS.String_) in Heq. lia.
Qed.

Lemma addProduct_inv a st n p s :
  store_inv a st → (a < JS.two53)%Z →
  store_inv (a + 1) (addProduct st n p s).2.
Proof.
  intros Hinv Hlt. pose proof (issued_fresh a st Hinv Hlt) as Hfresh.
  destruct Hinv as [Ha Hc Hiss Hnd]. split; simpl; unfold JS.push.
  - lia.
  - rewrite Hc. apply succ_min. lia.
  - apply Forall_app. split.
    + eapply Forall_impl; [exact Hiss|].
      intros q (k & Hk & Hq). exists k. split; [lia|done].
    + apply Forall_singleton. exists (nextId st). split; [lia|done].
  - rewrite fmap_app. apply NoDup_app. split_and!; [done| |apply NoDup_singleton].
    intros x (q & -> & Hq)%list_elem_of_fmap Hin%list_elem_of_singleton.
    simpl in Hin.
    rewrite Forall_forall in Hfresh. by apply (Hfresh q).
Qed.

(** [updateProduct] and [removeProduct] keep the ids pairwise distinct in
    every store. *)
Lemma updateProduct_nodup st i n p s :
  NoDup (id <$> products st) →
  NoDup (id <$> products (updateProduct st i n p s).2).
Proof.
  intros Hnd.
  destruct (list_find (λ product, id product = i) (products st))
    as [[k old]|] eqn:Hf.
  - rewrite (updateProduct_at _ _ n p s _ _ Hf). simpl.
    apply list_find_Some in Hf as (Hk & Hi & _).
    rewrite list_fmap_insert. simpl.
    rewrite list_insert_id; [done|]. by rewrite list_lookup_fmap, Hk, <-Hi.
  - apply list_find_None in Hf. by rewrite updateProduct_none.
Qed.

Lemma removeProduct_nodup st i :
  NoDup (id <$> products st) →
  NoDup (id <$> products (removeProduct st i).2).
Proof.
  intros Hnd.
  destruct (list_find (λ product, id product = i) (products st))
    as [[k old]|] eqn:Hf.
  - rewrite (removeProduct_at _ _ _ _ Hf). simpl.
    rewrite list_fmap_delete. eapply sublist_NoDup; [|apply sublist_delete]. done.
  - apply list_find_None in Hf. by rewrite removeProduct_none.
Qed.

Lemma updateProduct_inv a st i n p s :
  store_inv a st → store_inv a (updateProduct st i n p s).2.
Proof.
  intros Hinv. pose proof (updateProduct_nodup st i n p s (inv_nodup _ _ Hinv)).
  destruct (list_find (λ product, id product = i) (products st))
    as [[k old]|] eqn:Hf.
  - rewrite (updateProduct_at _ _ n p s _ _ Hf) in *. simpl in *.
    apply list_find_Some in Hf as (Hk & Hi & _).
    destruct Hinv as [Ha Hc Hiss Hnd]. split; simpl; [done..| |done].
    apply Forall_insert; [done|].
    apply (Forall_lookup_1 _ _ _ _ Hiss) in Hk. by rewrite <-Hi.
  - apply list_find_None in Hf. by rewrite updateProduct_none.
Qed.

Lemma removeProduct_inv a st i :
  store_inv a st → store_inv a (removeProduct st i).2.
Proof.
  intros Hinv. pose proof (removeProduct_nodup st i (inv_nodup _ _ Hinv)).
  destruct (list_find (λ product, id product = i) (products st))
    as [[k old]|] eqn:Hf.
  - rewrite (removeProduct_at _ _ _ _ Hf) in *. simpl in *.
    destruct Hinv as [Ha Hc Hiss Hnd]. split; simpl; [done..| |done].
    by apply Forall_delete.
  - apply list_find_None in Hf. by rewrite removeProduct_none.
Qed.

Lemma step_inv a st m :
  store_inv a st → (a + adds [m] ≤ JS.two53)%Z →
  store_inv (a + adds [m]) (step st m).2.
Proof.
  intros Hinv Hle. destruct m; cbn [step adds] in *.
  - apply addProduct_inv; [done|lia].
  - rewrite Z.add_0_r. by apply updateProduct_inv.
  - rewrite Z.add_0_r. by apply removeProduct_inv.
Qed.

Lemma run_inv ms : ∀ a st,
  store_inv a st → (a + adds ms ≤ JS.two53)%Z →
  store_inv (a + adds ms) (run st ms).
Proof.
  induction ms as [|m ms IH]; intros a st Hinv Hle.
  - simpl. by rewrite Z.add_0_r.
  - rewrite (adds_cons m ms) in *. pose proof (adds_nonneg ms).
    rewrite Z.add_assoc. cbn [run]. apply IH; [|lia].
    apply step_inv; [done|lia].
Qed.

(** Only [addProduct] moves the counter. *)
Lemma step_nextId st m :
  nextId (step st m).2
  = if decide (adds [m] = 0%Z) then nextId st else JS.succ (nextId st).
Proof.
  destruct m as [n p s|i n p s|i]; simpl; [done|..].
  - unfold updateProduct. by case_match.
  - unfold removeProduct. case_match; [done|].
    by destruct (JS.splice _ _ _).
Qed.

(** The counter counts the additions up to 2^53 and stays there. *)
Lemma run_counter ms : ∀ st,
  (1 ≤ nextId st ≤ JS.two53)%Z →
  nextId (run st ms) = Z.min (nextId st + adds ms) JS.two53.
Proof.
  induction ms as [|m ms IH]; intros st Hst; [simpl; lia|].
  cbn [run]. pose proof (step_nextId st m) as Hm.
  pose proof (succ_range _ Hst) as [Hs Hr]. pose proof (adds_nonneg ms).
  rewrite (adds_cons m ms). case_decide as H0.
  - rewrite IH by (rewrite Hm; lia). rewrite Hm, H0. lia.
  - assert (adds [m] = 1%Z) as -> by (destruct m; simpl in *; lia).
    rewrite IH by (rewrite Hm; lia). rewrite Hm, Hs. lia.
Qed.

Lemma reachable_range st : reachable st → (1 ≤ nextId st ≤ JS.two53)%Z.
Proof.
  intros [ms <-]. rewrite run_counter by (simpl; unfold JS.two53; lia).
  pose proof (adds_nonneg ms). simpl. unfold JS.two53. lia.
Qed.

(** A reachable store whose counter is below 2^53 has seen
    [nextId - 1] additions. *)
Lemma reachable_below st :
  reachable st → (nextId st < JS.two53)%Z → store_inv (nextId st - 1) st.
Proof.
  intros [ms <-] Hlt. pose proof (adds_nonneg ms).
  rewrite run_counter in * by (simpl; unfold JS.two53; lia). simpl in *.
  replace (Z.min (1 + adds ms) JS.two53 - 1)%Z with (0 + adds ms)%Z by lia.
  apply run_inv; [apply init_inv|lia].
Qed.

Lemma reachable_nodup st :
  reachable st → (nextId st < JS.two53)%Z → NoDup (id <$> products st).
Proof. intros Hr Hlt. apply (inv_nodup _ _ (reachable_below st Hr Hlt)). Qed.

Lemma reachable_fresh st :
  reachable st → (nextId st < JS.two53)%Z →
  Forall (λ q, id q ≠ JS.String_ (nextId st)) (products st).
Proof.
  intros Hr Hlt. apply (issued_fresh _ _ (reachable_below st Hr Hlt)). lia.
Qed.

Lemma assigned_sequential ms : ∀ a st,
  store_inv a st → (a + adds ms ≤ JS.two53)%Z →
  assigned st ms = JS.String_ <$> seqZ (1 + a) (adds ms).
Proof.
  induction ms as [|m ms IH]; intros a st Hinv Hle; [done|].
  rewrite (adds_cons m ms) in Hle. pose proof (adds_nonneg ms).
  pose proof (step_inv a st m Hinv) as Hstep.
  cbn [assigned]. rewrite (IH (a + adds [m])%Z) by (try apply Hstep; lia).
  destruct m as [n p s|i n p s|i]; cbn [adds step addProduct fst snd] in *.
  - rewrite (seqZ_cons (1 + a)) by lia.
    rewrite fmap_cons. rewrite (inv_counter _ _ Hinv).
    replace (Z.min (1 + a) JS.two53) with (1 + a)%Z by lia.
    do 3 f_equal; lia.
  - rewrite Z.add_0_r. by destruct (updateProduct st i n p s).1.
  - rewrite Z.add_0_r. by destruct (removeProduct st i).1.
Qed.

(** The run that drives the counter to 2^53. *)
Lemma churn_step k :
  (k < JS.two53)%Z →
  run (mkStore [] k) (churn k) = mkStore [] (k + 1).
Proof.
  intros Hk. unfold churn. cbn [run step addProduct snd products nextId].
  unfold JS.push. rewrite app_nil_l, succ_below by done.
  rewrite (removeProduct_at _ _ 0 (mkProduct (JS.String_ k) "spare" 0%float 0)).
  - done.
  - cbn [products list_find]. by rewrite decide_True.
Qed.

Lemma churn_run n :
  (0 ≤ n)%Z → (1 + n ≤ JS.two53)%Z →
  run init (concat (churn <$> seqZ 1 n)) = mkStore [] (1 + n).
Proof.
  intros Hn. pattern n. apply natlike_ind; [done| |done].
  clear n Hn. intros n Hn IH Hle.
  replace (Z.succ n) with (n + 1)%Z by lia.
  rewrite seqZ_app by lia. rewrite fmap_app, concat_app, run_app.
  rewrite IH by lia.
  change (seqZ (1 + n) 1) with [(0 + (1 + n))%Z].
  rewrite Z.add_0_l. cbn [fmap list_fmap concat]. rewrite app_nil_r.
  rewrite churn_step by lia. f_equal. lia.
Qed.

Lemma saturating_run_spec : run init saturating_run = saturated.
Proof.
  unfold saturating_run.
  assert (0 ≤ JS.two53 - 1)%Z as H0 by (unfold JS.two53; lia).
  assert (1 + (JS.two53 - 1) ≤ JS.two53)%Z as H1 by lia.
  pose proof (churn_run (JS.two53 - 1) H0 H1) as Hchurn. revert Hchurn.
  generalize (concat (churn <$> seqZ 1 (JS.two53 - 1))). intros ms Hms.
  rewrite run_app, Hms.
  replace (1 + (JS.two53 - 1))%Z with JS.two53 by lia.
  by vm_compute.
Qed.

Lemma duplicating_run_spec : run init duplicating_run = duplicated.
Proof.
  unfold duplicating_run. pose proof saturating_run_spec as Hsat.
  revert Hsat. generalize saturating_run. intros ms Hms.
  rewrite run_app, Hms. by vm_compute.
Qed.

(** The last two ids handed out along [duplicating_run] are the same. *)
Lemma duplicating_run_assigned :
  ∃ ids, assigned init duplicating_run
         = ids ++ ["9007199254740992"; "9007199254740992"].
Proof.
  unfold duplicating_run, saturating_run.
  assert (0 ≤ JS.two53 - 1)%Z as H0 by (unfold JS.two53; lia).
  assert (1 + (JS.two53 - 1) ≤ JS.two53)%Z as H1 by lia.
  pose proof (churn_run (JS.two53 - 1) H0 H1) as Hchurn. revert Hchurn.
  generalize (concat (churn <$> seqZ 1 (JS.two53 - 1))). intros ms Hms.
  exists (assigned init ms).
  rewrite <-app_assoc, assigned_app, Hms.
  replace (1 + (JS.two53 - 1))%Z with JS.two53 by lia.
  f_equal.
Qed.

Lemma saturated_reachable : reachable saturated.
Proof. exists saturating_run. apply saturating_run_spec. Qed.

Lemma duplicated_reachable : reachable duplicated.
Proof. exists duplicating_run. apply duplicating_run_spec. Qed.
Lemma unsaturated_nodup st :
  NoDup (id <$> products st) ∨ unsaturated st → NoDup (id <$> products st).
Proof. intros [Hnd|[Hr Hlt]]; [done|by apply reachable_nodup]. Qed.

Lemma demo_unsaturated : unsaturated demo.
Proof. split; [by exists demo_run|by vm_compute]. Qed.

Lemma adds_churn n :
  (0 ≤ n)%Z → adds (concat (churn <$> seqZ 1 n)) = n.
Proof.
  intros Hn. pattern n. apply natlike_ind; [done| |done].
  clear n Hn. intros n Hn IH.
  replace (Z.succ n) with (n + 1)%Z by lia.
  rewrite seqZ_app by lia. rewrite fmap_app, concat_app, adds_app, IH.
  change (seqZ (1 + n) 1) with [(0 + (1 + n))%Z]. simpl. lia.
Qed.

Lemma duplicating_run_adds : adds duplicating_run = (JS.two53 + 1)%Z.
Proof.
  unfold duplicating_run, saturating_run.
  assert (0 ≤ JS.two53 - 1)%Z as H0 by (unfold JS.two53; lia).
  pose proof (adds_churn (JS.two53 - 1) H0) as Hchurn. revert Hchurn.
  generalize (concat (churn <$> seqZ 1 (JS.two53 - 1))). intros ms Hms.
  rewrite !adds_app, Hms. simpl. lia.
Qed.
End invariant.

(** ** Listing *)

Section listing.
Implicit Types (st : Store) (page perPage : Z).

(** The two bounds of a page are [perPage] apart and lie on the side of
    zero that [page] picks. *)
Lemma page_bounds page perPage :
  (0 ≤ perPage)%Z →
  let s := ((page - 1) * perPage)%Z in
  let e := (page * perPage)%Z in
  e = (s + perPage)%Z
  ∧ ((1 ≤ page)%Z → (0 ≤ s)%Z)
  ∧ ((page ≤ 0)%Z → (e ≤ 0)%Z)
  ∧ (page = 0%Z → e = 0%Z)
  ∧ ((page < 0)%Z → (0 < perPage)%Z → (e < 0)%Z).
Proof. intros Hpp s e. subst s e. split_and!; nia. Qed.

Lemma listing_length_le st page perPage :
  (0 ≤ perPage)%Z →
  (Z.of_nat (length (Query_products st page perPage).1) ≤ perPage)%Z.
Proof.
  intros Hpp. cbn [Query_products fst]. rewrite slice_length.
  destruct (page_bounds page perPage Hpp) as (He & Hs1 & He0 & _ & _).
  revert He Hs1 He0.
  generalize ((page - 1) * perPage)%Z (page * perPage)%Z. intros s e -> Hs1 He0.
  unfold JS.relative.
  destruct (Z.ltb_spec s 0), (Z.ltb_spec (s + perPage) 0); lia.
Qed.

Lemma listing_window st page perPage :
  (1 ≤ page)%Z → (0 ≤ perPage)%Z →
  (Query_products st page perPage).1 = page_spec (products st) page perPage.
Proof.
  intros Hp Hpp. cbn [Query_products fst]. unfold page_spec.
  rewrite slice_window by nia. do 2 f_equal. lia.
Qed.

Lemma listing_nil_iff st page perPage :
  (0 < perPage)%Z →
  (Query_products st page perPage).1 = [] ↔
    ((1 ≤ page)%Z
       ∧ (Z.of_nat (length (products st)) ≤ (page - 1) * perPage)%Z)
    ∨ page = 0%Z
    ∨ ((page < 0)%Z
       ∧ (Z.of_nat (length (products st)) ≤ - (page * perPage))%Z).
Proof.
  intros Hpp. cbn [Query_products fst]. rewrite slice_nil_iff.
  destruct (page_bounds page perPage) as (He & Hs1 & He0 & Hz & Hneg); [lia|].
  revert He Hs1 He0 Hz Hneg.
  generalize ((page - 1) * perPage)%Z (page * perPage)%Z.
  intros s e -> Hs1 He0 Hz Hneg. unfold JS.relative.
  destruct (Z.ltb_spec s 0), (Z.ltb_spec (s + perPage) 0); lia.
Qed.
End listing.

(** C1 (amended).  For every store and every pair of integers, the products
    query leaves the store unchanged and returns
    [slice((page-1)*perPage, page*perPage)] of the list under JavaScript's
    rules: every returned record is the list's record at the clamped start
    plus its position, and the number of records is the distance between the
    clamped bounds.  For [perPage ≥ 0] that is at most [perPage] records, and
    for [page ≥ 1] and [perPage ≥ 0] it is the up-to-[perPage] records
    starting at offset [(page-1)*perPage]. *)
Theorem products_listing (st : Store) (page perPage : Z) :
  let len := Z.of_nat (length (products st)) in
  let s := ((page - 1) * perPage)%Z in
  let e := (page * perPage)%Z in
  let r := (Query_products st page perPage).1 in
  (Query_products st page perPage).2 = st
  ∧ r = JS.slice (products st) s e
  ∧ (∀ i x, r !! i = Some x →
       products st !! (Z.to_nat (JS.relative len s) + i) = Some x)
  ∧ Z.of_nat (length r) = Z.max 0 (JS.relative len e - JS.relative len s)
  ∧ ((0 ≤ perPage)%Z → (Z.of_nat (length r) ≤ perPage)%Z)
  ∧ ((1 ≤ page)%Z → (0 ≤ perPage)%Z →
       r = page_spec (products st) page perPage).
Proof.
  intros len s e r. split_and!.
  - done.
  - done.
  - intros i x. apply slice_lookup.
  - apply slice_length.
  - apply listing_length_le.
  - apply listing_window.
Qed.

Lemma products_listing_witness :
  (1 ≤ 2)%Z ∧ (0 ≤ 2)%Z
  ∧ (Query_products demo 2 2).1 = page_spec (products demo) 2 2.
Proof.
  split_and!; [lia..|].
  destruct (products_listing demo 2 2) as (_ & _ & _ & _ & _ & Hwin).
  apply Hwin; lia.
Defined.

(** With a negative [perPage] the listing is not "up to [perPage] records
    starting at offset [(page-1)*perPage]": page 1 of size -2 over five
    records is [slice(0, -2)], the first three records. *)
Lemma products_listing_negative_perPage :
  (Query_products demo 1 (-2)).1 = take 3 (products demo)
  ∧ (Query_products demo 1 (-2)).1 ≠ page_spec (products demo) 1 (-2)
  ∧ ¬ (Z.of_nat (length (Query_products demo 1 (-2)).1) ≤ -2)%Z.
Proof.
  split_and!.
  - by vm_compute.
  - vm_compute. discriminate.
  - vm_compute. intros Hle. by apply Hle.
Qed.

(** C8 (amended).  For [perPage > 0] the products query validates nothing
    and leaves the store unchanged; its result is empty exactly for a page
    [≥ 1] whose offset [(page-1)*perPage] is at or beyond the end of the
    list, for page 0, and for a negative page when the list has at most
    [-page*perPage] records.  (A negative page over a longer list returns
    records counted from the end of the list.) *)
Theorem products_out_of_range (st : Store) (page perPage : Z) :
  (0 < perPage)%Z →
  (Query_products st page perPage).2 = st
  ∧ ((Query_products st page perPage).1 = [] ↔
      ((1 ≤ page)%Z
         ∧ (Z.of_nat (length (products st)) ≤ (page - 1) * perPage)%Z)
      ∨ page = 0%Z
      ∨ ((page < 0)%Z
         ∧ (Z.of_nat (length (products st)) ≤ - (page * perPage))%Z)).
Proof. intros Hpp. split; [done|]. by apply listing_nil_iff. Qed.

Lemma products_out_of_range_witness :
  (0 < 2)%Z ∧ (Query_products demo 4 2).1 = [].
Proof.
  split; [lia|].
  apply (products_out_of_range demo 4 2); [lia|]. left. cbn. lia.
Defined.

(** Page -1 of size 2 lies before the list, yet over five records the
    query answers [slice(-4, -2)]: the second and third record. *)
Lemma products_negative_page_not_empty :
  (0 < 2)%Z ∧ (-1 < 1)%Z
  ∧ (Query_products demo (-1) 2).1
    = [mkProduct "2" "nut" 0.25%float 60; mkProduct "3" "gear" 12%float 7]
  ∧ (Query_products demo (-1) 2).1 ≠ [].
Proof. split_and!; [lia|lia|by vm_compute|by vm_compute]. Qed.

(** ** Where the records of the list come from *)

Section provenance.
Implicit Types (st : Store) (ms pre : list Mutation).

Lemma step_wrote st m pre :
  Forall (λ q, Exists (wrote q) pre) (products st) →
  Forall (λ q, Exists (wrote q) (pre ++ [m])) (products (step st m).2).
Proof.
  intros Hst.
  assert (Forall (λ q, Exists (wrote q) (pre ++ [m])) (products st)) as Hst'.
  { eapply Forall_impl; [exact Hst|]. intros q Hq. apply Exists_app. by left. }
  destruct m as [n p s|i n p s|i]; cbn [step].
  - simpl. unfold JS.push. apply Forall_app. split; [done|].
    apply Forall_singleton, Exists_app. right. by apply Exists_cons_hd.
  - destruct (list_find (λ product, id product = i) (products st))
      as [[k old]|] eqn:Hf.
    + rewrite (updateProduct_at _ _ n p s _ _ Hf). simpl.
      apply Forall_insert; [done|].
      apply Exists_app. right. by apply Exists_cons_hd.
    + apply list_find_None in Hf. by rewrite updateProduct_none.
  - destruct (list_find (λ product, id product = i) (products st))
      as [[k old]|] eqn:Hf.
    + rewrite (removeProduct_at _ _ _ _ Hf). simpl. by apply Forall_delete.
    + apply list_find_None in Hf. by rewrite removeProduct_none.
Qed.

Lemma run_wrote ms : ∀ st pre,
  Forall (λ q, Exists (wrote q) pre) (products st) →
  Forall (λ q, Exists (wrote q) (pre ++ ms)) (products (run st ms)).
Proof.
  induction ms as [|m ms IH]; intros st pre Hst.
  - by rewrite app_nil_r.
  - cbn [run]. rewrite (cons_middle m pre ms), app_assoc.
    apply IH. by apply step_wrote.
Qed.
End provenance.

(** ** Mutations *)

(** C2 (amended).  [addProduct] builds the record whose id is the
    stringified counter and whose other fields are the arguments, returns
    it and appends it to the end of the list, and every page that covers
    the new record's index then lists it, at that index minus the page's
    offset.  In every state the server can be in, the counter goes to
    [min(nextId + 1, 2^53)]; while it is below 2^53, that is an increment
    by one and the id differs from the id of every record already
    listed. *)
Theorem addProduct_appends_fresh (st : Store) (n : string) (p : float)
    (s : Z) :
  let new := mkProduct (JS.String_ (nextId st)) n p s in
  (addProduct st n p s).1 = Some new
  ∧ products (addProduct st n p s).2 = products st ++ [new]
  ∧ (reachable st →
     nextId (addProduct st n p s).2 = Z.min (nextId st + 1) JS.two53)
  ∧ (unsaturated st →
     Forall (λ q, id q ≠ id new) (products st)
     ∧ nextId (addProduct st n p s).2 = (nextId st + 1)%Z)
  ∧ ∀ page perPage,
      (1 ≤ page)%Z →
      ((page - 1) * perPage ≤ Z.of_nat (length (products st))
         < page * perPage)%Z →
      (Query_products (addProduct st n p s).2 page perPage).1
        !! (length (products st) - Z.to_nat ((page - 1) * perPage))
      = Some new.
Proof.
  intros new. split_and!.
  - done.
  - done.
  - intros Hr%reachable_range. simpl. by apply succ_range.
  - intros [Hr Hlt]. split; [by apply reachable_fresh|].
    simpl. by apply succ_below.
  - intros page perPage Hp [Hlo Hhi]. cbn [Query_products addProduct fst snd products].
    unfold JS.push. apply slice_covers; [|nia|lia].
    by rewrite lookup_app_r, Nat.sub_diag.
Qed.

Lemma addProduct_appends_fresh_witness :
  unsaturated demo
  ∧ Forall (λ q, id q ≠ "6") (products demo)
  ∧ nextId (addProduct demo "cog" 2%float 9).2 = 7%Z
  ∧ (Query_products (addProduct demo "cog" 2%float 9).2 3 2).1 !! 1
    = Some (mkProduct "6" "cog" 2%float 9).
Proof.
  pose proof demo_unsaturated as Hdemo.
  destruct (addProduct_appends_fresh demo "cog" 2%float 9)
    as (_ & _ & _ & Hfresh & Hpage).
  destruct (Hfresh Hdemo) as [Hids Hnext].
  split_and!; [done|exact Hids|exact Hnext|].
  apply (Hpage 3%Z 2%Z); cbn; lia.
Defined.

(** Once the counter stands at 2^53 it stays there, and [addProduct] hands
    out the id of a record that is still listed. *)
Lemma addProduct_repeats_id :
  reachable saturated
  ∧ (addProduct saturated "second" 2%float 2).1
    = Some (mkProduct "9007199254740992" "second" 2%float 2)
  ∧ Exists (λ q, id q = "9007199254740992") (products saturated)
  ∧ nextId (addProduct saturated "second" 2%float 2).2 = nextId saturated.
Proof.
  split_and!; [apply saturated_reachable|by vm_compute| |by vm_compute].
  apply Exists_cons_hd. reflexivity.
Qed.

(** C3 (amended).  Along every run from the initial state with at most
    2^53 [addProduct] calls, the ids of the live list are pairwise
    distinct, and the ids handed out by [addProduct] are the numerals of
    1, 2, 3, ... in order, so none of them repeats an earlier one,
    whatever was removed in between. *)
Theorem ids_unique_never_reused (ms : list Mutation) :
  (adds ms ≤ JS.two53)%Z →
  NoDup (id <$> products (run init ms))
  ∧ assigned init ms = JS.String_ <$> seqZ 1 (adds ms)
  ∧ NoDup (assigned init ms).
Proof.
  intros Hle. split_and!.
  - apply (inv_nodup (0 + adds ms)), run_inv; [apply init_inv|lia].
  - by rewrite (assigned_sequential ms 0 init init_inv) by lia.
  - rewrite (assigned_sequential ms 0 init init_inv) by lia.
    apply (NoDup_fmap_2 JS.String_), NoDup_seqZ.
Qed.

Lemma ids_unique_never_reused_witness :
  (adds demo_run ≤ JS.two53)%Z
  ∧ NoDup (id <$> products demo) ∧ NoDup (assigned init demo_run).
Proof.
  assert (adds demo_run ≤ JS.two53)%Z as Hle by (by vm_compute).
  destruct (ids_unique_never_reused demo_run Hle) as (Hlive & _ & Hassigned).
  by split_and!.
Defined.

(** The run of 2^53 + 1 additions ends with two listed records carrying
    the same id, the id [addProduct] handed out twice. *)
Lemma ids_repeat_past_two53 :
  adds duplicating_run = (JS.two53 + 1)%Z
  ∧ ¬ NoDup (id <$> products (run init duplicating_run))
  ∧ ¬ NoDup (assigned init duplicating_run).
Proof.
  split_and!.
  - apply duplicating_run_adds.
  - pose proof duplicating_run_spec as Hrun. revert Hrun.
    generalize (run init duplicating_run). intros st -> Hnd.
    apply NoDup_cons in Hnd as [Hnot _]. apply Hnot. left.
  - destruct duplicating_run_assigned as [ids Hids]. revert Hids.
    generalize (assigned init duplicating_run). intros l -> Hnd.
    apply NoDup_app in Hnd as (_ & _ & Hnd).
    apply NoDup_cons in Hnd as [Hnot _]. apply Hnot. left.
Qed.

(** C4.  When some record carries the id, [updateProduct] writes the
    record built from its arguments over the first such record: same
    position, same id, the new name, price and stock; the list keeps its
    length, the counter its value, and the new record is returned. *)
Theorem updateProduct_replaces_in_place (st : Store) (i n : string)
    (p : float) (s : Z) :
  Exists (λ q, id q = i) (products st) →
  ∃ k old,
    products st !! k = Some old ∧ id old = i
    ∧ (∀ j z, products st !! j = Some z → j < k → id z ≠ i)
    ∧ updateProduct st i n p s
      = (Some (mkProduct i n p s),
         mkStore (<[k := mkProduct i n p s]> (products st)) (nextId st))
    ∧ products (updateProduct st i n p s).2 !! k = Some (mkProduct i n p s)
    ∧ id (mkProduct i n p s) = id old
    ∧ length (products (updateProduct st i n p s).2) = length (products st).
Proof.
  intros (k & old & Hf & Hk & Hi & Hfirst)%first_match.
  exists k, old. rewrite (updateProduct_at _ _ n p s _ _ Hf). simpl.
  split_and!; [done..| |done|by rewrite length_insert].
  apply list_lookup_insert_eq. by eapply lookup_lt_Some.
Qed.

Lemma updateProduct_replaces_in_place_witness :
  Exists (λ q, id q = "3") (products demo)
  ∧ (updateProduct demo "3" "gear" 11%float 6).1
    = Some (mkProduct "3" "gear" 11%float 6)
  ∧ length (products (updateProduct demo "3" "gear" 11%float 6).2) = 5.
Proof.
  assert (Exists (λ q, id q = "3") (products demo)) as Hex.
  { apply Exists_exists. exists (mkProduct "3" "gear" 12%float 7).
    split; [|done]. vm_compute. do 2 right. left. }
  split; [done|].
  destruct (updateProduct_replaces_in_place demo "3" "gear" 11%float 6 Hex)
    as (k & old & _ & _ & _ & Heq & _ & _ & Hlen).
  split; [by rewrite Heq|exact Hlen].
Defined.

(** C5.  When no record carries the id, [updateProduct] returns null and
    the store (list and counter) is exactly what it was. *)
Theorem updateProduct_unknown_id (st : Store) (i n : string) (p : float)
    (s : Z) :
  Forall (λ q, id q ≠ i) (products st) →
  updateProduct st i n p s = (None, st).
Proof. apply updateProduct_none. Qed.

Lemma updateProduct_unknown_id_witness :
  Forall (λ q, id q ≠ "9") (products demo)
  ∧ updateProduct demo "9" "cog" 2%float 9 = (None, demo).
Proof.
  assert (Forall (λ q, id q ≠ "9") (products demo)) as Hall.
  { vm_compute. repeat constructor; discriminate. }
  split; [done|]. by apply updateProduct_unknown_id.
Defined.

(** C6 (amended).  When some record carries the id, [removeProduct] takes
    the first such record out of the list and returns it, and the list is
    one record shorter; when the ids of the list are pairwise distinct, as
    they are in every state the server is in while the counter is below
    2^53, no listing of the new state, for any page and page size, shows a
    record with that id. *)
Theorem removeProduct_removes (st : Store) (i : string) :
  Exists (λ q, id q = i) (products st) →
  ∃ k old,
    products st !! k = Some old ∧ id old = i
    ∧ (∀ j z, products st !! j = Some z → j < k → id z ≠ i)
    ∧ removeProduct st i
      = (Some old, mkStore (delete k (products st)) (nextId st))
    ∧ S (length (products (removeProduct st i).2)) = length (products st)
    ∧ (NoDup (id <$> products st) ∨ unsaturated st →
       ∀ page perPage,
         Forall (λ q, id q ≠ i)
                (Query_products (removeProduct st i).2 page perPage).1).
Proof.
  intros (k & old & Hf & Hk & Hi & Hfirst)%first_match.
  exists k, old. rewrite (removeProduct_at _ _ _ _ Hf). simpl.
  split_and!; [done..| |].
  - rewrite length_delete by eauto. apply lookup_lt_Some in Hk. lia.
  - intros Hnd%unsaturated_nodup page perPage.
    apply Forall_forall. intros q Hq%slice_elem_of.
    pose proof (delete_id_gone _ _ _ Hnd Hk) as Hgone.
    rewrite Forall_forall in Hgone. rewrite <-Hi. by apply Hgone.
Qed.

Lemma removeProduct_removes_witness :
  Exists (λ q, id q = "3") (products demo) ∧ unsaturated demo
  ∧ S (length (products (removeProduct demo "3").2)) = 5
  ∧ Forall (λ q, id q ≠ "3") (Query_products (removeProduct demo "3").2 1 10).1.
Proof.
  pose proof demo_unsaturated as Hdemo.
  assert (Exists (λ q, id q = "3") (products demo)) as Hex.
  { apply Exists_exists. exists (mkProduct "3" "gear" 12%float 7).
    split; [|done]. vm_compute. do 2 right. left. }
  split_and!; [done..| |];
    destruct (removeProduct_removes demo "3" Hex)
      as (k & old & _ & _ & _ & _ & Hlen & Hlist).
  - exact Hlen.
  - apply Hlist. by right.
Defined.

(** In the state reached by 2^53 + 1 additions two records carry the last
    id; removing it returns the first of them and the other is still
    listed. *)
Lemma removeProduct_leaves_duplicate :
  reachable duplicated
  ∧ Exists (λ q, id q = "9007199254740992") (products duplicated)
  ∧ removeProduct duplicated "9007199254740992"
    = (Some (mkProduct "9007199254740992" "first" 1%float 1),
       mkStore [mkProduct "9007199254740992" "second" 2%float 2] JS.two53)
  ∧ (Query_products (removeProduct duplicated "9007199254740992").2 1 10).1
    = [mkProduct "9007199254740992" "second" 2%float 2].
Proof.
  split_and!; [apply duplicated_reachable| |by vm_compute|by vm_compute].
  apply Exists_cons_hd. reflexivity.
Qed.

(** C7 (amended).  When no record carries the id, [removeProduct] returns
    null and leaves the store unchanged; and when the ids of the list are
    pairwise distinct, as they are in every state the server is in while
    the counter is below 2^53, a second [removeProduct] of the same id,
    right after a first one, returns null and changes nothing. *)
Theorem removeProduct_unknown_id :
  (∀ st i, Forall (λ q, id q ≠ i) (products st) →
           removeProduct st i = (None, st))
  ∧ (∀ st i, NoDup (id <$> products st) ∨ unsaturated st →
             removeProduct (removeProduct st i).2 i
             = (None, (removeProduct st i).2)).
Proof.
  split; [apply removeProduct_none|].
  intros st i Hnd%unsaturated_nodup. apply removeProduct_none.
  destruct (list_find (λ product, id product = i) (products st))
    as [[k old]|] eqn:Hf.
  - rewrite (removeProduct_at _ _ _ _ Hf). simpl.
    apply list_find_Some in Hf as (Hk & <- & _).
    by apply delete_id_gone.
  - apply list_find_None in Hf. by rewrite removeProduct_none.
Qed.

Lemma removeProduct_unknown_id_witness :
  (Forall (λ q, id q ≠ "9") (products demo)
   ∧ removeProduct demo "9" = (None, demo))
  ∧ (unsaturated demo
     ∧ removeProduct (removeProduct demo "3").2 "3"
       = (None, (removeProduct demo "3").2)).
Proof.
  assert (Forall (λ q, id q ≠ "9") (products demo)) as Hall.
  { vm_compute. repeat constructor; discriminate. }
  pose proof demo_unsaturated as Hdemo.
  split; (split; [done|]).
  - by apply (proj1 removeProduct_unknown_id).
  - apply (proj2 removeProduct_unknown_id). by right.
Defined.

(** In the state reached by 2^53 + 1 additions, the second removal of the
    repeated id returns a record and empties the list. *)
Lemma removeProduct_twice_returns_record :
  reachable duplicated
  ∧ removeProduct (removeProduct duplicated "9007199254740992").2
                  "9007199254740992"
    = (Some (mkProduct "9007199254740992" "second" 2%float 2),
       mkStore [] JS.two53).
Proof. split; [apply duplicated_reachable|by vm_compute]. Qed.

(** C9 (amended).  The store checks no sign: every record of the live list
    carries the name, price and stock that an [addProduct] or
    [updateProduct] call of the run passed (and, for [updateProduct], its
    id).  So along a run in which every [addProduct] and [updateProduct]
    call has a non-negative price and a non-negative stock, every record
    of the live list has a non-negative price and a non-negative stock. *)
Theorem nonneg_records_from_nonneg_calls (ms : list Mutation) :
  Forall (λ q, Exists (wrote q) ms) (products (run init ms))
  ∧ (Forall nonneg_args ms →
     Forall nonneg_product (products (run init ms))).
Proof.
  assert (Forall (λ q, Exists (wrote q) ms) (products (run init ms)))
    as Hwrote by apply (run_wrote ms init []), Forall_nil_2.
  split; [done|]. intros Hargs.
  eapply Forall_impl; [exact Hwrote|]. intros q (m & Hm & Hq)%Exists_exists.
  rewrite Forall_forall in Hargs. specialize (Hargs m Hm).
  destruct m as [n p s|i n p s|i]; simpl in *; [| |done].
  - destruct Hq as (_ & Hp & Hs). unfold nonneg_product. by rewrite Hp, Hs.
  - destruct Hq as (_ & _ & Hp & Hs). unfold nonneg_product. by rewrite Hp, Hs.
Qed.

Lemma nonneg_records_from_nonneg_calls_witness :
  Forall nonneg_args demo_run ∧ Forall nonneg_product (products demo).
Proof.
  assert (Forall nonneg_args demo_run) as Hargs.
  { repeat constructor; vm_compute; congruence. }
  split; [done|]. by apply nonneg_records_from_nonneg_calls.
Defined.

(** [addProduct] accepts a negative price and a negative stock and lists
    the record as given. *)
Lemma negative_record_listed :
  products (run init [AddProduct "debt" (-1)%float (-1)])
    = [mkProduct "1" "debt" (-1)%float (-1)]
  ∧ ¬ Forall nonneg_product
        (products (run init [AddProduct "debt" (-1)%float (-1)]))
  ∧ PrimFloat.ltb (price (mkProduct "1" "debt" (-1)%float (-1))) 0 = true
  ∧ (stock (mkProduct "1" "debt" (-1)%float (-1)) < 0)%Z.
Proof.
  split_and!; [by vm_compute| |by vm_compute|by vm_compute].
  intros [[Hprice _] _]%Forall_cons. vm_compute in Hprice. discriminate.
Qed.

(** C10.  Each mutation touches one record only.  [addProduct] leaves every
    index of the old list as it was; [updateProduct] on a matching id
    leaves every index other than the first match as it was;
    [removeProduct] on a matching id leaves the indices before the first
    match as they were and shifts the ones after it down by one, in
    order. *)
Theorem mutations_frame (st : Store) :
  (∀ n p s j, j < length (products st) →
      products (addProduct st n p s).2 !! j = products st !! j)
  ∧ (∀ i n p s, Exists (λ q, id q = i) (products st) →
      ∃ k old, products st !! k = Some old ∧ id old = i
        ∧ (∀ j z, products st !! j = Some z → j < k → id z ≠ i)
        ∧ ∀ j, j ≠ k →
            products (updateProduct st i n p s).2 !! j = products st !! j)
  ∧ (∀ i, Exists (λ q, id q = i) (products st) →
      ∃ k old, products st !! k = Some old ∧ id old = i
        ∧ (∀ j z, products st !! j = Some z → j < k → id z ≠ i)
        ∧ (∀ j, j < k →
            products (removeProduct st i).2 !! j = products st !! j)
        ∧ (∀ j, k ≤ j →
            products (removeProduct st i).2 !! j = products st !! S j)).
Proof.
  split_and!.
  - intros n p s j Hj. simpl. unfold JS.push. by apply lookup_app_l.
  - intros i n p s (k & old & Hf & Hk & Hi & Hfirst)%first_match.
    exists k, old. rewrite (updateProduct_at _ _ n p s _ _ Hf). simpl.
    split_and!; [done..|]. intros j Hj. by apply list_lookup_insert_ne.
  - intros i (k & old & Hf & Hk & Hi & Hfirst)%first_match.
    exists k, old. rewrite (removeProduct_at _ _ _ _ Hf). simpl.
    split_and!; [done..| |].
    + intros j Hj. by apply list_lookup_delete_lt.
    + intros j Hj. by apply list_lookup_delete_ge.
Qed.

Lemma mutations_frame_witness :
  (1 < length (products demo)
   ∧ products (addProduct demo "cog" 2%float 9).2 !! 1 = products demo !! 1)
  ∧ (Exists (λ q, id q = "3") (products demo)
     ∧ ∃ k, ∀ j, j ≠ k →
         products (updateProduct demo "3" "gear" 11%float 6).2 !! j
         = products demo !! j)
  ∧ (Exists (λ q, id q = "3") (products demo)
     ∧ ∃ k, ∀ j, k ≤ j →
         products (removeProduct demo "3").2 !! j = products demo !! S j).
Proof.
  assert (Exists (λ q, id q = "3") (products demo)) as Hex.
  { apply Exists_exists. exists (mkProduct "3" "gear" 12%float 7).
    split; [|done]. vm_compute. do 2 right. left. }
  destruct (mutations_frame demo) as (Hadd & Hupd & Hrem).
  split_and!.
  - cbn. lia.
  - apply Hadd. cbn. lia.
  - done.
  - destruct (Hupd "3" "gear" 11%float 6%Z Hex) as (k & old & _ & _ & _ & Hk).
    by exists k.
  - done.
  - destruct (Hrem "3" Hex) as (k & old & _ & _ & _ & _ & Hk). by exists k.
Defined.

(** ** Walking the listing *)

Section paging.
Implicit Types (st : Store) (page perPage : Z).

Lemma page_append st perPage n :
  (0 ≤ perPage)%Z →
  take (n * Z.to_nat perPage) (products st)
    ++ (Query_products st (1 + Z.of_nat n) perPage).1
  = take (S n * Z.to_nat perPage) (products st).
Proof.
  intros Hpp. rewrite listing_window by lia. unfold page_spec.
  replace (Z.to_nat ((1 + Z.of_nat n - 1) * perPage))
    with (n * Z.to_nat perPage) by nia.
  rewrite take_take_drop. f_equal. lia.
Qed.

Lemma pages_take st perPage n :
  (0 ≤ perPage)%Z →
  pages st perPage n = take (n * Z.to_nat perPage) (products st).
Proof.
  intros Hpp. unfold pages. induction n as [|n IH]; [done|].
  rewrite seqZ_S, fmap_app, concat_app, IH. simpl. rewrite app_nil_r.
  by apply page_append.
Qed.

(** Two lists with the same first [N] records have the same windows
    inside these [N] records. *)
Lemma window_prefix {A} (l1 l2 : list A) s m N :
  take N l1 = take N l2 → s + m ≤ N →
  take m (drop s l1) = take m (drop s l2).
Proof.
  intros Heq Hle. rewrite !take_drop_commute. f_equal.
  replace (s + m) with (min (s + m) N) by lia.
  by rewrite <-!take_take, Heq.
Qed.

Lemma listing_prefix st1 st2 page perPage N :
  take N (products st1) = take N (products st2) →
  (1 ≤ page)%Z → (0 ≤ perPage)%Z → (page * perPage ≤ Z.of_nat N)%Z →
  (Query_products st1 page perPage).1 = (Query_products st2 page perPage).1.
Proof.
  intros Heq Hp Hpp HN. rewrite !listing_window by done. unfold page_spec.
  apply (window_prefix _ _ _ _ N); [done|nia].
Qed.
End paging.

(** X1.  Walking pages 1, 2, ..., n with one positive page size returns
    the first [n * perPage] records of the list, each once and in list
    order; as soon as [n * perPage] reaches the length of the list, the
    walk has returned the whole list. *)
Theorem pages_cover_list (st : Store) (perPage : Z) (n : nat) :
  (0 < perPage)%Z →
  pages st perPage n = take (n * Z.to_nat perPage) (products st)
  ∧ ((Z.of_nat (length (products st)) ≤ Z.of_nat n * perPage)%Z →
     pages st perPage n = products st).
Proof.
  intros Hpp. split; [apply pages_take; lia|].
  intros Hlen. rewrite pages_take by lia. apply take_ge. nia.
Qed.

Lemma pages_cover_list_witness :
  (0 < 2)%Z
  ∧ (Z.of_nat (length (products demo)) ≤ Z.of_nat 3 * 2)%Z
  ∧ pages demo 2 3 = products demo.
Proof.
  split_and!; [lia|cbn; lia|].
  apply (pages_cover_list demo 2 3); [lia|cbn; lia].
Defined.

(** X2.  For a page number of at least 1 and a page size that is not
    negative, the number of records returned is [perPage], cut down to what
    the list still holds from offset [(page-1)*perPage] on: a full page
    while [page * perPage] stays within the list, the remainder on the last
    page, nothing beyond. *)
Theorem page_length (st : Store) (page perPage : Z) :
  (1 ≤ page)%Z → (0 ≤ perPage)%Z →
  Z.of_nat (length (Query_products st page perPage).1)
  = Z.min perPage
      (Z.max 0 (Z.of_nat (length (products st)) - (page - 1) * perPage)).
Proof.
  intros Hp Hpp. rewrite listing_window by done. unfold page_spec.
  rewrite length_take, length_drop.
  assert (0 ≤ (page - 1) * perPage)%Z by nia.
  generalize dependent ((page - 1) * perPage)%Z. intros s Hs. lia.
Qed.

Lemma page_length_witness :
  (1 ≤ 3)%Z ∧ (0 ≤ 2)%Z
  ∧ Z.of_nat (length (Query_products demo 3 2).1) = 1%Z.
Proof.
  split_and!; [lia..|]. by rewrite (page_length demo 3 2) by lia.
Defined.

(** X3.  A page size of 0 yields an empty result for every page.  A
    negative page size yields an empty result for every page except page 1,
    where the bounds are [slice(0, perPage)]: the list without its last
    [-perPage] records. *)
Theorem nonpositive_perPage (st : Store) (page perPage : Z) :
  (perPage = 0%Z → (Query_products st page perPage).1 = [])
  ∧ ((perPage < 0)%Z → page ≠ 1%Z → (Query_products st page perPage).1 = [])
  ∧ ((perPage < 0)%Z → page = 1%Z →
     (Query_products st page perPage).1
     = take (Z.to_nat (Z.of_nat (length (products st)) + perPage))
            (products st)).
Proof.
  split_and!.
  - intros ->. cbn [Query_products fst]. apply slice_nil_iff.
    rewrite !Z.mul_0_r. lia.
  - intros Hpp Hp. cbn [Query_products fst]. apply slice_nil_iff.
    assert (page * perPage = (page - 1) * perPage + perPage)%Z as -> by lia.
    assert ((page ≤ 0)%Z → (0 ≤ (page - 1) * perPage + perPage)%Z) by nia.
    assert ((2 ≤ page)%Z → ((page - 1) * perPage < 0)%Z) by nia.
    generalize dependent ((page - 1) * perPage)%Z. intros s H0 H2.
    unfold JS.relative.
    destruct (Z.ltb_spec s 0), (Z.ltb_spec (s + perPage) 0); lia.
  - intros Hpp ->. cbn [Query_products fst]. unfold JS.slice, JS.relative.
    replace ((1 - 1) * perPage)%Z with 0%Z by lia. rewrite Z.mul_1_l.
    destruct (Z.ltb_spec perPage 0); [|lia].
    change (0 <? 0)%Z with false. cbv iota.
    replace (Z.to_nat (Z.min 0 (Z.of_nat (length (products st))))) with 0
      by lia.
    rewrite drop_0. f_equal. lia.
Qed.

Lemma nonpositive_perPage_witness :
  (Query_products demo 7 0).1 = []
  ∧ ((-2 < 0)%Z ∧ 2%Z ≠ 1%Z ∧ (Query_products demo 2 (-2)).1 = [])
  ∧ ((-2 < 0)%Z ∧ (Query_products demo 1 (-2)).1 = take 3 (products demo)).
Proof.
  destruct (nonpositive_perPage demo 7 0) as (Hzero & _ & _).
  destruct (nonpositive_perPage demo 2 (-2)) as (_ & Hother & _).
  destruct (nonpositive_perPage demo 1 (-2)) as (_ & _ & Hfirst).
  split_and!; [by apply Hzero|lia|lia|apply Hother; lia|lia|apply Hfirst; lia].
Defined.

(** X4.  With a positive page size, a negative page whose bounds stay
    inside the list is a window counted from the end: [perPage] records
    starting [-(page-1)*perPage] records before the end of the list. *)
Theorem negative_page_window (st : Store) (page perPage : Z) :
  (page < 0)%Z → (0 < perPage)%Z →
  (- ((page - 1) * perPage) ≤ Z.of_nat (length (products st)))%Z →
  (Query_products st page perPage).1
  = take (Z.to_nat perPage)
      (drop (Z.to_nat (Z.of_nat (length (products st))
                       + (page - 1) * perPage))
            (products st)).
Proof.
  intros Hp Hpp Hlen. cbn [Query_products fst]. unfold JS.slice.
  assert (page * perPage = (page - 1) * perPage + perPage)%Z as -> by lia.
  assert ((page - 1) * perPage + perPage < 0)%Z by nia.
  generalize dependent ((page - 1) * perPage)%Z. intros s Hlen Hs.
  unfold JS.relative.
  destruct (Z.ltb_spec s 0); [|lia].
  destruct (Z.ltb_spec (s + perPage) 0); [|lia].
  do 2 f_equal; lia.
Qed.

Lemma negative_page_window_witness :
  (-1 < 0)%Z ∧ (0 < 2)%Z
  ∧ (- ((-1 - 1) * 2) ≤ Z.of_nat (length (products demo)))%Z
  ∧ (Query_products demo (-1) 2).1 = take 2 (drop 1 (products demo)).
Proof.
  split_and!; [lia|lia|cbn; lia|].
  apply (negative_page_window demo (-1) 2); [lia|lia|cbn; lia].
Defined.

(** ** Mutations one after the other *)

Section find_insert.
Context {A : Type} (P : A → Prop) `{!∀ x, Decision (P x)}.
Implicit Types (l : list A) (x : A).

(** Writing a matching element over the first match keeps it the first
    match. *)
Lemma list_find_insert_same l k old new :
  list_find P l = Some (k, old) → P new →
  list_find P (<[k := new]> l) = Some (k, new).
Proof.
  intros (Hk & Hold & Hfirst)%list_find_Some Hnew.
  apply list_find_insert_Some. right. left.
  split_and!; [done|done|by eapply lookup_lt_Some|done|done].
Qed.

(** Writing a non-matching element over a non-matching one changes no
    search. *)
Lemma list_find_insert_other l k old new :
  l !! k = Some old → ¬ P old → ¬ P new →
  list_find P (<[k := new]> l) = list_find P l.
Proof.
  revert k. induction l as [|x l IH]; intros [|k] Hk Hold Hnew; try done.
  - simpl in *. injection Hk as ->. by rewrite !decide_False.
  - simpl in *. by rewrite (IH k).
Qed.

Lemma delete_insert_same l k x : delete k (<[k := x]> l) = delete k l.
Proof.
  rewrite !delete_take_drop.
  by rewrite take_insert_ge, drop_insert_lt by lia.
Qed.
End find_insert.

Section compose_facts.
Implicit Types (st : Store) (i n : string) (p : float) (s : Z).

Lemma updateProduct_cases st i n p s :
  updateProduct st i n p s =
  match list_find (λ product, id product = i) (products st) with
  | Some (k, _) =>
      (Some (mkProduct i n p s),
       mkStore (<[k := mkProduct i n p s]> (products st)) (nextId st))
  | None => (None, st)
  end.
Proof.
  destruct (list_find _ _) as [[k old]|] eqn:Hf.
  - by apply updateProduct_at with old.
  - apply updateProduct_none. by apply list_find_None in Hf.
Qed.

Lemma removeProduct_cases st i :
  removeProduct st i =
  match list_find (λ product, id product = i) (products st) with
  | Some (k, old) => (Some old, mkStore (delete k (products st)) (nextId st))
  | None => (None, st)
  end.
Proof.
  destruct (list_find _ _) as [[k old]|] eqn:Hf.
  - by apply removeProduct_at.
  - apply removeProduct_none. by apply list_find_None in Hf.
Qed.

Lemma updateProduct_ids st i n p s :
  id <$> products (updateProduct st i n p s).2 = id <$> products st.
Proof.
  rewrite updateProduct_cases.
  destruct (list_find _ _) as [[k old]|] eqn:Hf; [|done]. simpl.
  apply list_find_Some in Hf as (Hk & Hi & _).
  rewrite list_fmap_insert. simpl.
  apply list_insert_id. by rewrite list_lookup_fmap, Hk, <-Hi.
Qed.
End compose_facts.

(** X5.  When some record carries the id, an [updateProduct] followed by a
    [removeProduct] of the same id returns, from the removal, exactly the
    record the update wrote, and leaves the store that a removal without
    the update would have left. *)
Theorem update_then_remove (st : Store) (i n : string) (p : float) (s : Z) :
  Exists (λ q, id q = i) (products st) →
  removeProduct (updateProduct st i n p s).2 i
  = (Some (mkProduct i n p s), (removeProduct st i).2).
Proof.
  intros (k & old & Hf & Hk & Hi & Hfirst)%first_match.
  rewrite (updateProduct_at _ _ n p s _ _ Hf).
  rewrite (removeProduct_at _ _ _ _ Hf). cbn [snd].
  pose proof (list_find_insert_same _ _ _ _ (mkProduct i n p s) Hf eq_refl)
    as Hf'.
  rewrite (removeProduct_at (mkStore _ (nextId st)) i k _ Hf').
  simpl. by rewrite delete_insert_same.
Qed.

Lemma update_then_remove_witness :
  Exists (λ q, id q = "3") (products demo)
  ∧ (removeProduct (updateProduct demo "3" "gear" 11%float 6).2 "3").1
    = Some (mkProduct "3" "gear" 11%float 6).
Proof.
  assert (Exists (λ q, id q = "3") (products demo)) as Hex.
  { apply Exists_exists. exists (mkProduct "3" "gear" 12%float 7).
    split; [|done]. vm_compute. do 2 right. left. }
  split; [done|].
  by rewrite (update_then_remove demo "3" "gear" 11%float 6 Hex).
Defined.

(** X6.  In every state the server is in while the counter is below 2^53,
    removing the record that [addProduct] has just added gives the list
    back as it was before the addition and returns that record; the
    counter stays advanced, so the id is spent. *)
Theorem add_then_remove (st : Store) (n : string) (p : float) (s : Z) :
  unsaturated st →
  removeProduct (addProduct st n p s).2 (JS.String_ (nextId st))
  = (Some (mkProduct (JS.String_ (nextId st)) n p s),
     mkStore (products st) (nextId st + 1)).
Proof.
  intros [Hr Hlt]. pose proof (reachable_fresh st Hr Hlt) as Hfresh.
  set (new := mkProduct (JS.String_ (nextId st)) n p s).
  assert (list_find (λ product, id product = JS.String_ (nextId st))
            (products (addProduct st n p s).2)
          = Some (length (products st), new)) as Hf.
  { simpl. unfold JS.push. rewrite list_find_app_r.
    - simpl. by rewrite decide_True.
    - by apply list_find_None. }
  rewrite (removeProduct_at _ _ _ _ Hf). simpl. unfold JS.push.
  by rewrite delete_middle, app_nil_r, succ_below.
Qed.

Lemma add_then_remove_witness :
  unsaturated demo
  ∧ removeProduct (addProduct demo "cog" 2%float 9).2 "6"
    = (Some (mkProduct "6" "cog" 2%float 9), mkStore (products demo) 7).
Proof.
  pose proof demo_unsaturated as Hdemo.
  split; [done|]. exact (add_then_remove demo "cog" 2%float 9 Hdemo).
Defined.

(** X7.  A second [updateProduct] of the same id overwrites the first:
    result and store are those of the second call alone, whether or not
    the id is in the list. *)
Theorem update_overwrites (st : Store) (i n1 n2 : string) (p1 p2 : float)
    (s1 s2 : Z) :
  updateProduct (updateProduct st i n1 p1 s1).2 i n2 p2 s2
  = updateProduct st i n2 p2 s2.
Proof.
  rewrite (updateProduct_cases st i n1), (updateProduct_cases st i n2).
  destruct (list_find _ (products st)) as [[k old]|] eqn:Hf.
  - rewrite updateProduct_cases. simpl.
    rewrite (list_find_insert_same _ _ _ _ (mkProduct i n1 p1 s1) Hf eq_refl).
    by rewrite list_insert_insert_eq.
  - simpl. by rewrite updateProduct_cases, Hf.
Qed.

(** X8.  [updateProduct] never changes which ids the list holds, at which
    positions, nor the counter, whether or not it finds the id. *)
Theorem updateProduct_keeps_ids (st : Store) (i n : string) (p : float)
    (s : Z) :
  id <$> products (updateProduct st i n p s).2 = id <$> products st
  ∧ length (products (updateProduct st i n p s).2) = length (products st)
  ∧ nextId (updateProduct st i n p s).2 = nextId st.
Proof.
  split_and!.
  - apply updateProduct_ids.
  - rewrite <-(length_fmap id), updateProduct_ids. apply length_fmap.
  - rewrite updateProduct_cases. by destruct (list_find _ _) as [[k old]|].
Qed.

(** ** Counter, length and order along a run *)

Section run_facts.
Implicit Types (st : Store) (ms : list Mutation).

Lemma step_length st m :
  (Z.of_nat (length (products (step st m).2))
   ≤ Z.of_nat (length (products st)) + adds [m])%Z.
Proof.
  destruct m as [n p s|i n p s|i]; cbn [step adds].
  - simpl. unfold JS.push. rewrite length_app. simpl. lia.
  - rewrite <-(length_fmap id), updateProduct_ids, length_fmap. lia.
  - rewrite removeProduct_cases.
    destruct (list_find _ _) as [[k old]|]; simpl; [|lia].
    pose proof (length_delete (products st) k).
    destruct (products st !! k) eqn:Hk.
    + rewrite length_delete by eauto. lia.
    + rewrite delete_take_drop, take_ge, drop_ge, app_nil_r;
        [lia|apply lookup_ge_None in Hk; lia..].
Qed.

Lemma run_length ms : ∀ st,
  (Z.of_nat (length (products (run st ms)))
   ≤ Z.of_nat (length (products st)) + adds ms)%Z.
Proof.
  induction ms as [|m ms IH]; intros st; [simpl; lia|].
  cbn [run]. pose proof (IH (step st m).2).
  rewrite (adds_cons m ms). pose proof (step_length st m). lia.
Qed.

Lemma StronglySorted_delete {A} (R : relation A) (l : list A) k :
  StronglySorted R l → StronglySorted R (delete k l).
Proof.
  intros Hl. revert k. induction Hl as [|x l Hl IH Hx]; intros [|k]; simpl.
  - constructor.
  - constructor.
  - done.
  - constructor; [apply IH|by apply Forall_delete].
Qed.

Lemma step_ids_increasing st m :
  (1 ≤ nextId st)%Z → (nextId st + adds [m] ≤ JS.two53)%Z →
  ids_increasing st → ids_increasing (step st m).2.
Proof.
  intros Hc Hle (ks & Hids & Hsort & Hrange).
  destruct m as [n p s|i n p s|i]; cbn [step adds] in *.
  - exists (ks ++ [nextId st]). simpl. unfold JS.push.
    rewrite succ_below by lia. split_and!.
    + by rewrite !fmap_app, Hids.
    + apply StronglySorted_app_2; [|done|repeat constructor].
      intros k1 k2 Hk1 ->%list_elem_of_singleton.
      rewrite Forall_forall in Hrange. apply Hrange in Hk1. lia.
    + apply Forall_app. split.
      * eapply Forall_impl; [exact Hrange|]. intros k Hk. simpl in *. lia.
      * apply Forall_singleton. lia.
  - exists ks. rewrite updateProduct_ids. split_and!; [done..|].
    rewrite updateProduct_cases. by destruct (list_find _ _) as [[k old]|].
  - rewrite removeProduct_cases.
    destruct (list_find _ _) as [[k old]|]; [|by exists ks].
    exists (delete k ks). cbn [snd products nextId]. split_and!.
    + by rewrite !list_fmap_delete, Hids.
    + by apply StronglySorted_delete.
    + by apply Forall_delete.
Qed.

Lemma run_ids_increasing ms : ∀ st,
  (1 ≤ nextId st)%Z → (nextId st + adds ms ≤ JS.two53)%Z →
  ids_increasing st → ids_increasing (run st ms).
Proof.
  induction ms as [|m ms IH]; intros st Hc Hle Hinc; [done|].
  rewrite (adds_cons m ms) in Hle. pose proof (adds_nonneg ms).
  pose proof (adds_nonneg [m]).
  assert (nextId (step st m).2 = (nextId st + adds [m])%Z) as Hnext.
  { rewrite step_nextId. case_decide as Hadd; [lia|].
    rewrite succ_below by lia. destruct m; simpl in *; lia. }
  cbn [run]. apply IH; [lia|lia|apply step_ids_increasing; [done|lia|done]].
Qed.
End run_facts.

(** X9.  Along every run from a store whose counter holds an integer from
    1 to 2^53, the counter ends at the old value plus the number of
    [addProduct] calls, cut off at 2^53: it counts the additions, whatever
    was updated or removed, never decreases, and stops at 2^53.  The list
    grows by at most the number of additions. *)
Theorem counter_counts_adds (st : Store) (ms : list Mutation) :
  (1 ≤ nextId st ≤ JS.two53)%Z →
  nextId (run st ms) = Z.min (nextId st + adds ms) JS.two53
  ∧ (nextId st ≤ nextId (run st ms) ≤ JS.two53)%Z
  ∧ (Z.of_nat (length (products (run st ms)))
     ≤ Z.of_nat (length (products st)) + adds ms)%Z.
Proof.
  intros Hst. pose proof (run_counter ms st Hst) as Hc.
  pose proof (adds_nonneg ms). split_and!; [done|lia|lia|apply run_length].
Qed.

Lemma counter_counts_adds_witness :
  (1 ≤ nextId init ≤ JS.two53)%Z ∧ nextId demo = 6%Z.
Proof.
  assert (1 ≤ nextId init ≤ JS.two53)%Z as Hinit by (by vm_compute).
  split; [done|].
  destruct (counter_counts_adds init demo_run Hinit) as (Hc & _ & _).
  exact Hc.
Defined.

(** X10.  In every state reached from the initial one by a run with fewer
    than 2^53 [addProduct] calls, the ids of the live list, read front to
    back, are the numerals of strictly increasing counter values between 1
    and the counter: the list is in creation order, and updates never move
    a record. *)
Theorem live_ids_increasing (ms : list Mutation) :
  (adds ms < JS.two53)%Z →
  ids_increasing (run init ms).
Proof.
  intros Hlt. apply run_ids_increasing; [simpl; lia|simpl; lia|].
  exists []. split_and!; constructor.
Qed.

Lemma live_ids_increasing_witness :
  (adds demo_run < JS.two53)%Z ∧ ids_increasing demo.
Proof.
  assert (adds demo_run < JS.two53)%Z as Hlt by (by vm_compute).
  split; [done|]. by apply live_ids_increasing.
Defined.

Section commute.
Implicit Types (st : Store) (i j n : string) (p : float) (s : Z).

(** An update of one id is invisible to the search for another. *)
Lemma update_other_find st i j n p s :
  i ≠ j →
  list_find (λ product, id product = j) (products (updateProduct st i n p s).2)
  = list_find (λ product, id product = j) (products st).
Proof.
  intros Hne. rewrite updateProduct_cases.
  destruct (list_find (λ product, id product = i) (products st))
    as [[k old]|] eqn:Hf; [|done].
  apply list_find_Some in Hf as (Hk & Hi & _). simpl.
  apply (list_find_insert_other _ _ _ old); [done|congruence|done].
Qed.
End commute.

(** X11.  Updates of two different ids commute: in either order they leave
    the same store, and each call returns what it would have returned on
    its own. *)
Theorem updates_commute (st : Store) (i j ni nj : string) (pi pj : float)
    (si sj : Z) :
  i ≠ j →
  (updateProduct (updateProduct st i ni pi si).2 j nj pj sj).2
  = (updateProduct (updateProduct st j nj pj sj).2 i ni pi si).2
  ∧ (updateProduct (updateProduct st i ni pi si).2 j nj pj sj).1
    = (updateProduct st j nj pj sj).1
  ∧ (updateProduct (updateProduct st j nj pj sj).2 i ni pi si).1
    = (updateProduct st i ni pi si).1.
Proof.
  intros Hne.
  rewrite (updateProduct_cases (updateProduct st i ni pi si).2 j),
          (updateProduct_cases (updateProduct st j nj pj sj).2 i).
  rewrite !update_other_find by done.
  rewrite (updateProduct_cases st i ni), (updateProduct_cases st j nj).
  destruct (list_find (λ product, id product = i) (products st))
    as [[ki oi]|] eqn:Hfi;
  destruct (list_find (λ product, id product = j) (products st))
    as [[kj oj]|] eqn:Hfj; simpl; split_and!; try done.
  apply list_find_Some in Hfi as (Hki & Hi & _).
  apply list_find_Some in Hfj as (Hkj & Hj & _).
  f_equal. apply list_insert_insert_ne. intros ->. congruence.
Qed.

Lemma updates_commute_witness :
  "2" ≠ "4"
  ∧ (updateProduct (updateProduct demo "2" "nut" 1%float 1).2
                   "4" "belt" 9%float 9).2
    = (updateProduct (updateProduct demo "4" "belt" 9%float 9).2
                     "2" "nut" 1%float 1).2.
Proof.
  assert ("2" ≠ "4") as Hne by discriminate.
  split; [done|].
  by destruct (updates_commute demo "2" "4" "nut" "belt" 1%float 9%float
                 1 9 Hne) as (Hcomm & _ & _).
Defined.

(** X12.  [addProduct] changes no page that was already full: every page
    that ends within the old list is listed afterwards exactly as
    before. *)
Theorem addProduct_keeps_full_pages (st : Store) (n : string) (p : float)
    (s : Z) (page perPage : Z) :
  (1 ≤ page)%Z → (0 ≤ perPage)%Z →
  (page * perPage ≤ Z.of_nat (length (products st)))%Z →
  (Query_products (addProduct st n p s).2 page perPage).1
  = (Query_products st page perPage).1.
Proof.
  intros Hp Hpp Hfull.
  apply (listing_prefix _ _ _ _ (length (products st))); [|done..].
  simpl. unfold JS.push. by rewrite take_app_length, take_ge.
Qed.

Lemma addProduct_keeps_full_pages_witness :
  (1 ≤ 2)%Z ∧ (0 ≤ 2)%Z ∧ (2 * 2 ≤ Z.of_nat (length (products demo)))%Z
  ∧ (Query_products (addProduct demo "cog" 2%float 9).2 2 2).1
    = (Query_products demo 2 2).1.
Proof.
  split_and!; [lia|lia|cbn; lia|].
  apply addProduct_keeps_full_pages; [lia|lia|cbn; lia].
Defined.

(** X13.  When some record carries the id, [removeProduct] changes no page
    that ends at or before the removed record, and every page that starts
    at or after it then shows the window one record further down the old
    list. *)
Theorem removeProduct_pages (st : Store) (i : string) :
  Exists (λ q, id q = i) (products st) →
  ∃ k old,
    products st !! k = Some old ∧ id old = i
    ∧ (∀ j z, products st !! j = Some z → j < k → id z ≠ i)
    ∧ (∀ page perPage,
         (1 ≤ page)%Z → (0 ≤ perPage)%Z → (page * perPage ≤ Z.of_nat k)%Z →
         (Query_products (removeProduct st i).2 page perPage).1
         = (Query_products st page perPage).1)
    ∧ (∀ page perPage,
         (1 ≤ page)%Z → (0 ≤ perPage)%Z →
         (Z.of_nat k ≤ (page - 1) * perPage)%Z →
         (Query_products (removeProduct st i).2 page perPage).1
         = take (Z.to_nat perPage)
             (drop (S (Z.to_nat ((page - 1) * perPage))) (products st))).
Proof.
  intros (k & old & Hf & Hk & Hi & Hfirst)%first_match.
  exists k, old. rewrite (removeProduct_at _ _ _ _ Hf). cbn [snd].
  pose proof (lookup_lt_Some _ _ _ Hk) as Hlt.
  split_and!; [done..| |].
  - intros page perPage Hp Hpp Hend.
    apply (listing_prefix _ _ _ _ k); [|done..].
    simpl. rewrite delete_take_drop. apply take_app_length'.
    rewrite length_take. lia.
  - intros page perPage Hp Hpp Hstart. rewrite listing_window by done.
    unfold page_spec. simpl. f_equal.
    rewrite delete_take_drop, drop_app_ge by (rewrite length_take; lia).
    rewrite length_take, drop_drop. f_equal. lia.
Qed.

Lemma removeProduct_pages_witness :
  Exists (λ q, id q = "3") (products demo)
  ∧ (Query_products (removeProduct demo "3").2 1 2).1
    = (Query_products demo 1 2).1
  ∧ (Query_products (removeProduct demo "3").2 2 2).1
    = take 2 (drop 3 (products demo)).
Proof.
  assert (Exists (λ q, id q = "3") (products demo)) as Hex.
  { apply Exists_exists. exists (mkProduct "3" "gear" 12%float 7).
    split; [|done]. vm_compute. do 2 right. left. }
  split; [done|].
  destruct (removeProduct_pages demo "3" Hex)
    as (k & old & Hk & Hi & _ & Hbefore & Hafter).
  assert (k = 2) as ->.
  { destruct k as [|[|[|[|[|k]]]]]; vm_compute in Hk; try discriminate Hk;
      injection Hk as <-; vm_compute in Hi; try discriminate Hi; reflexivity. }
  split; [apply Hbefore; lia|apply (Hafter 2%Z 2%Z); lia].
Defined.

(** X14.  When some record carries the id, [updateProduct] changes a
    listing (page at least 1, page size not negative) at one place only:
    the position of the updated record in the page, when the page holds
    it; every other page is listed as before. *)
Theorem updateProduct_in_listing (st : Store) (i n : string) (p : float)
    (s : Z) :
  Exists (λ q, id q = i) (products st) →
  ∃ k old,
    products st !! k = Some old ∧ id old = i
    ∧ (∀ j z, products st !! j = Some z → j < k → id z ≠ i)
    ∧ ∀ page perPage,
        (1 ≤ page)%Z → (0 ≤ perPage)%Z →
        (Query_products (updateProduct st i n p s).2 page perPage).1
        = if decide (Z.to_nat ((page - 1) * perPage) ≤ k)
          then <[k - Z.to_nat ((page - 1) * perPage) := mkProduct i n p s]>
                 (Query_products st page perPage).1
          else (Query_products st page perPage).1.
Proof.
  intros (k & old & Hf & Hk & Hi & Hfirst)%first_match.
  exists k, old. rewrite (updateProduct_at _ _ n p s _ _ Hf). cbn [snd].
  split_and!; [done..|].
  intros page perPage Hp Hpp. rewrite !listing_window by done.
  unfold page_spec. simpl.
  generalize (Z.to_nat ((page - 1) * perPage)) (Z.to_nat perPage).
  intros S M. case_decide as Hle.
  - rewrite drop_insert_ge by done.
    destruct (decide (k - S < M)).
    + by rewrite take_insert_lt.
    + rewrite take_insert_ge by lia. symmetry. apply list_insert_ge.
      rewrite length_take. lia.
  - by rewrite drop_insert_lt by lia.
Qed.

Lemma updateProduct_in_listing_witness :
  Exists (λ q, id q = "3") (products demo)
  ∧ (Query_products (updateProduct demo "3" "gear" 11%float 6).2 2 2).1
    = <[0 := mkProduct "3" "gear" 11%float 6]> (Query_products demo 2 2).1.
Proof.
  assert (Exists (λ q, id q = "3") (products demo)) as Hex.
  { apply Exists_exists. exists (mkProduct "3" "gear" 12%float 7).
    split; [|done]. vm_compute. do 2 right. left. }
  split; [done|].
  destruct (updateProduct_in_listing demo "3" "gear" 11%float 6 Hex)
    as (k & old & Hk & Hi & _ & Hpage).
  assert (k = 2) as ->.
  { destruct k as [|[|[|[|[|k]]]]]; vm_compute in Hk; try discriminate Hk;
      injection Hk as <-; vm_compute in Hi; try discriminate Hi; reflexivity. }
  apply (Hpage 2%Z 2%Z); lia.
Defined.

(** ** The store as a keyed collection *)

Section keyed.
Implicit Types (l : list Product) (st : Store) (i : string).

Lemma filter_all {A} (P : A → Prop) `{!∀ x, Decision (P x)} (l : list A) :
  Forall P l → filter P l = l.
Proof.
  induction 1 as [|x l Hx _ IH]; [done|].
  by rewrite filter_cons_True, IH.
Qed.

Lemma nodup_head_unique (x : Product) l :
  NoDup (id <$> x :: l) → Forall (λ q, id q ≠ id x) l.
Proof.
  rewrite fmap_cons. intros [Hx _]%NoDup_cons.
  apply Forall_forall. intros q Hq Heq. apply Hx. rewrite <-Heq.
  by apply list_elem_of_fmap_2.
Qed.

(** With pairwise distinct ids, deleting the first match is filtering the
    id out. *)
Lemma delete_first_filter l i :
  NoDup (id <$> l) →
  match list_find (λ product, id product = i) l with
  | Some (k, _) => delete k l
  | None => l
  end = filter (λ q, id q ≠ i) l.
Proof.
  induction l as [|x l IH]; intros Hnd; [done|].
  pose proof (nodup_head_unique _ _ Hnd) as Hx.
  rewrite fmap_cons in Hnd. apply NoDup_cons in Hnd as [_ Hnd].
  specialize (IH Hnd). cbn [list_find]. case_decide as Hi.
  - simpl. rewrite filter_cons_False by (intros Hne; by apply Hne).
    symmetry. apply filter_all. by rewrite <-Hi.
  - rewrite filter_cons_True by done. rewrite <-IH.
    by destruct (list_find _ l) as [[k y]|].
Qed.

(** With pairwise distinct ids, writing over the first match is writing
    over every record with the id. *)
Lemma insert_first_fmap l i (new : Product) :
  NoDup (id <$> l) →
  match list_find (λ product, id product = i) l with
  | Some (k, _) => <[k := new]> l
  | None => l
  end = (λ q, if decide (id q = i) then new else q) <$> l.
Proof.
  induction l as [|x l IH]; intros Hnd; [done|].
  pose proof (nodup_head_unique _ _ Hnd) as Hx.
  rewrite fmap_cons in Hnd. apply NoDup_cons in Hnd as [_ Hnd].
  specialize (IH Hnd). cbn [list_find]. rewrite fmap_cons.
  case_decide as Hi.
  - simpl. f_equal. rewrite <-Hi in *. clear IH.
    induction Hx as [|y l Hy _ IH']; [done|].
    rewrite fmap_cons, decide_False by done. f_equal. apply IH'.
    rewrite fmap_cons in Hnd. by apply NoDup_cons in Hnd as [_ Hnd].
  - rewrite <-IH. by destruct (list_find _ l) as [[k y]|].
Qed.

(** What [removeProduct] leaves, in every store. *)
Lemma delete_first l i :
  match list_find (λ product, id product = i) l with
  | Some (k, _) => delete k l
  | None => l
  end = remove_first i l.
Proof.
  induction l as [|x l IH]; [done|].
  cbn [list_find remove_first]. case_decide as Hi; [done|].
  rewrite <-IH. by destruct (list_find _ l) as [[k y]|].
Qed.

Lemma removeProduct_remove_first st i :
  (removeProduct st i).2
  = mkStore (remove_first i (products st)) (nextId st).
Proof.
  rewrite <-delete_first, removeProduct_cases.
  destruct (list_find _ _) as [[k old]|]; [done|]. by destruct st.
Qed.

Lemma remove_first_comm l i j :
  remove_first j (remove_first i l) = remove_first i (remove_first j l).
Proof.
  induction l as [|x l IH]; [done|]. cbn [remove_first].
  destruct (decide (id x = i)) as [Hi|Hi], (decide (id x = j)) as [Hj|Hj];
    cbn [remove_first].
  - congruence.
  - by rewrite decide_True.
  - by rewrite decide_True.
  - by rewrite !decide_False, IH.
Qed.

Lemma removeProduct_filter st i :
  NoDup (id <$> products st) →
  (removeProduct st i).2
  = mkStore (filter (λ q, id q ≠ i) (products st)) (nextId st).
Proof.
  intros Hnd. rewrite <-(delete_first_filter _ i Hnd), removeProduct_cases.
  destruct (list_find _ _) as [[k old]|]; [done|]. by destruct st.
Qed.
End keyed.

(** X15.  When the ids of the list are pairwise distinct, as they are in
    every state the server is in while the counter is below 2^53,
    [removeProduct] leaves exactly the records whose id differs from the
    given one, in their order, and the counter as it was, whether or not
    the id was listed. *)
Theorem removeProduct_filters (st : Store) (i : string) :
  NoDup (id <$> products st) ∨ unsaturated st →
  products (removeProduct st i).2 = filter (λ q, id q ≠ i) (products st)
  ∧ nextId (removeProduct st i).2 = nextId st.
Proof.
  intros Hnd%unsaturated_nodup.
  by rewrite (removeProduct_filter st i Hnd).
Qed.

Lemma removeProduct_filters_witness :
  unsaturated demo
  ∧ products (removeProduct demo "3").2
    = filter (λ q, id q ≠ "3") (products demo).
Proof.
  pose proof demo_unsaturated as Hdemo.
  split; [done|]. apply removeProduct_filters. by right.
Defined.

(** X16.  In every state the server can be in, two removals commute: in
    either order they leave the same store. *)
Theorem removals_commute (st : Store) (i j : string) :
  reachable st →
  (removeProduct (removeProduct st i).2 j).2
  = (removeProduct (removeProduct st j).2 i).2.
Proof.
  intros _. rewrite !removeProduct_remove_first. simpl.
  by rewrite remove_first_comm.
Qed.

Lemma removals_commute_witness :
  reachable demo
  ∧ (removeProduct (removeProduct demo "2").2 "4").2
    = (removeProduct (removeProduct demo "4").2 "2").2.
Proof.
  assert (reachable demo) as Hdemo by (by exists demo_run).
  split; [done|]. by apply removals_commute.
Defined.

(** X17.  When the ids of the list are pairwise distinct, as they are in
    every state the server is in while the counter is below 2^53,
    [updateProduct] amounts to replacing every record that carries the id
    by the record built from the arguments, and keeping every other
    record, position by position. *)
Theorem updateProduct_maps (st : Store) (i n : string) (p : float) (s : Z) :
  NoDup (id <$> products st) ∨ unsaturated st →
  products (updateProduct st i n p s).2
  = (λ q, if decide (id q = i) then mkProduct i n p s else q)
      <$> products st.
Proof.
  intros Hnd%unsaturated_nodup.
  rewrite <-(insert_first_fmap _ i _ Hnd).
  rewrite updateProduct_cases. by destruct (list_find _ _) as [[k old]|].
Qed.

Lemma updateProduct_maps_witness :
  unsaturated demo
  ∧ products (updateProduct demo "3" "gear" 11%float 6).2
    = (λ q, if decide (id q = "3") then mkProduct "3" "gear" 11%float 6
            else q) <$> products demo.
Proof.
  pose proof demo_unsaturated as Hdemo.
  split; [done|]. apply updateProduct_maps. by right.
Defined.

(** X18.  When the ids of the list are pairwise distinct, as they are in
    every state the server is in while the counter is below 2^53, the
    records of one listing carry pairwise distinct ids, for every pair of
    integer arguments: the id is usable as the key of a row, as the table
    of the page component does. *)
Theorem listing_ids_distinct (st : Store) (page perPage : Z) :
  NoDup (id <$> products st) ∨ unsaturated st →
  NoDup (id <$> (Query_products st page perPage).1).
Proof.
  intros Hnd%unsaturated_nodup. cbn [Query_products fst]. unfold JS.slice.
  rewrite fmap_take, fmap_drop.
  eapply sublist_NoDup; [exact Hnd|].
  etrans; [apply sublist_take|apply sublist_drop].
Qed.

Lemma listing_ids_distinct_witness :
  unsaturated demo ∧ NoDup (id <$> (Query_products demo (-1) 2).1).
Proof.
  pose proof demo_unsaturated as Hdemo.
  split; [done|]. apply listing_ids_distinct. by right.
Defined.

(** ** The example of the specification, evaluated *)

Example run_example :
  let st1 := (addProduct init "Widget" 9.99%float 5).2 in
  (addProduct init "Widget" 9.99%float 5).1
    = Some (mkProduct "1" "Widget" 9.99%float 5)
  ∧ (Query_products st1 1 10).1 = [mkProduct "1" "Widget" 9.99%float 5]
  ∧ (updateProduct st1 "1" "Widget" 7.5%float 3).1
    = Some (mkProduct "1" "Widget" 7.5%float 3)
  ∧ (removeProduct (updateProduct st1 "1" "Widget" 7.5%float 3).2 "1").1
    = Some (mkProduct "1" "Widget" 7.5%float 3)
  ∧ (Query_products
       (removeProduct (updateProduct st1 "1" "Widget" 7.5%float 3).2 "1").2
       1 10).1 = [].
Proof. vm_compute. repeat split. Qed.

